(** * ETWtop: the session query engine, the poll/diff loop and the dashboard

    A shallow embedding of [main.go] (package [main] of ETWtop) and the
    properties its design document states about it.

    Conventions of the embedding:
    - a [uint32] is a [Z]; every operation the source performs on [uint32]
      operands is written with its reduction modulo [2^32] ([U32]);
    - a [float64] is the rational it denotes; every floating-point operation
      is the exact operation followed by rounding to the nearest binary64
      value, ties to even ([Float64.round]);
    - a Go [string] is a [string] of bytes, compared bytewise as Go does;
    - [map[string]ETWSession] is a [gmap string ETWSession];
    - the operating system ([QueryAllTracesW]) and the clock ([time.Now])
      are an explicit [World]; [QueryAllSessions] runs in a state and error
      monad over it. *)

From Stdlib Require Import ZArith QArith Qround Qpower Qabs Lia Lqa.
From Stdlib Require Import Sorting.Sorted Sorting.Permutation.
From Stdlib Require Floats.
From stdpp Require Import gmap strings list fin_maps.

Local Open Scope Z_scope.

(* ===================================================================== *)
(** * Part I. The embedding                                               *)
(* ===================================================================== *)

(** ** Constants (main.go, lines 20-25) *)

Definition ERROR_SUCCESS : Z := 0.
Definition ERROR_MORE_DATA : Z := 234.
Definition MAX_SESSION_NAME_LEN : Z := 1024.
Definition WNODE_FLAG_TRACED_GUID : Z := 0x00020000.

(** ** Unsigned 32-bit arithmetic *)

Module U32.

Definition modulus : Z := 2 ^ 32.

Definition wrap (z : Z) : Z := z mod modulus.

Definition add (a b : Z) : Z := wrap (a + b).
Definition sub (a b : Z) : Z := wrap (a - b).
Definition mul (a b : Z) : Z := wrap (a * b).

(** [in_range z]: [z] is a value of type [uint32]. *)
Definition in_range (z : Z) : bool := (0 <=? z) && (z <? modulus).

End U32.

(** ** binary64 arithmetic

    A finite [float64] is modelled by the rational number it denotes.  An
    operation is the exact operation on rationals followed by [round], the
    IEEE 754 rounding to nearest, ties to even, at 53 bits of precision.
    Exponent range is not modelled: a value the program computes from
    [uint32] counters is zero, or at least [2^-32], and a percentage, a size
    or a sum of these over the sessions: all are far from the overflow and
    subnormal thresholds of binary64. *)

Module Float64.

(** Precision of binary64: 53 significant bits. *)
Definition prec : Z := 53.

(** Nearest integer, ties to the even one. *)
Definition rne (x : Q) : Z :=
  let f := Qfloor x in
  match Qcompare (x - inject_Z f)%Q (1 # 2)%Q with
  | Lt => f
  | Gt => f + 1
  | Eq => if Z.even f then f else f + 1
  end.

(** [ilog2 x] is the binary exponent of a positive [x]:
    [2^(ilog2 x) <= x < 2^(ilog2 x + 1)]. *)
Definition ilog2 (x : Q) : Z :=
  let d := Z.log2 (Qnum x) - Z.log2 (Zpos (Qden x)) in
  if Qle_bool (2 ^ d)%Q x then d else d - 1.

(** The unit in the last place of the binade of [x] is [2^(ilog2 x - 52)]. *)
Definition round_pos (x : Q) : Q :=
  let e := ilog2 x - (prec - 1) in
  (inject_Z (rne (x / 2 ^ e)%Q) * 2 ^ e)%Q.

Definition round (x : Q) : Q :=
  match Qnum x with
  | Z0 => 0%Q
  | Zpos _ => Qred (round_pos x)
  | Zneg _ => Qred (- round_pos (- x))%Q
  end.

(** [float64(n)] for an unsigned 32-bit [n]: exact, 32 bits fit in 53. *)
Definition of_uint32 (n : Z) : Q := inject_Z n.

(** [float64(n)] for an [int]: rounded (exact below [2^53]). *)
Definition of_int (n : Z) : Q := round (inject_Z n).

Definition add (x y : Q) : Q := round (x + y)%Q.
Definition mul (x y : Q) : Q := round (x * y)%Q.
Definition div (x y : Q) : Q := round (x / y)%Q.

(** [x > y] on floats. *)
Definition gtb (x y : Q) : bool := negb (Qle_bool x y).

(** [2^52], the least significand of a normal binary64 number. *)
Definition two52 : Q := 4503599627370496.

(** The unit roundoff of binary64, [2^-53]. *)
Definition unit_roundoff : Q := 1 # 9007199254740992.

End Float64.

(** The same operations on the binary64 numbers of the proof assistant's
    kernel, which computes them with the processor's floating-point unit:
    a reference to run the model against. *)

Module Hardware.

Import Floats.

(** The rational a finite float denotes. *)
Definition to_Q (x : PrimFloat.float) : option Q :=
  match FloatOps.Prim2SF x with
  | SpecFloat.S754_zero _ => Some 0%Q
  | SpecFloat.S754_finite s m e =>
      Some (Qred ((if s then -1 else 1) * inject_Z (Z.pos m) * 2 ^ e)%Q)
  | _ => None
  end.

Definition of_uint32 (n : Z) : PrimFloat.float :=
  PrimFloat.of_uint63 (Uint63.of_Z n).

(** [float64(d) / float64(n) * 100.0] *)
Definition percent (d n : Z) : PrimFloat.float :=
  PrimFloat.mul (PrimFloat.div (of_uint32 d) (of_uint32 n)) (of_uint32 100).

(** [float64(p) / 1024.0] *)
Definition kilo (p : Z) : PrimFloat.float :=
  PrimFloat.div (of_uint32 p) (of_uint32 1024).

(** The model and the hardware agree on [d / n * 100] and on [d / 1024]. *)
Definition agree (dn : Z * Z) : bool :=
  let '(d, n) := dn in
  match to_Q (percent d n), to_Q (kilo d) with
  | Some p, Some k =>
      Qeq_bool p
        (Float64.mul (Float64.div (Float64.of_uint32 d) (Float64.of_uint32 n))
           100%Q)
      && Qeq_bool k (Float64.div (Float64.of_uint32 d) 1024%Q)
  | _, _ => false
  end.

End Hardware.

(** ** Session records (main.go, lines 59-85) *)

(** [time.Time] values are instants, counted in nanoseconds. *)
Definition Time : Type := Z.

Record ETWSession : Type := mkETWSession {
  Name : string;
  BufferSize : Z;
  MinimumBuffers : Z;
  MaximumBuffers : Z;
  NumberOfBuffers : Z;
  FreeBuffers : Z;
  BuffersWritten : Z;
  EventsLost : Z;
  RealTimeBuffersLost : Z;
  LogFileMode : Z;
  LogFileName : string;
  Timestamp : Time
}.

#[global] Instance ETWSession_eq_dec : EqDecision ETWSession.
Proof. solve_decision. Defined.

(** Every counter of the record is a [uint32]. *)
Definition session_in_range (s : ETWSession) : bool :=
  forallb U32.in_range
    [BufferSize s; MinimumBuffers s; MaximumBuffers s; NumberOfBuffers s;
     FreeBuffers s; BuffersWritten s; EventsLost s; RealTimeBuffersLost s;
     LogFileMode s].

(** [func (s *ETWSession) UtilizationPercent() float64] *)
Definition UtilizationPercent (s : ETWSession) : Q :=
  if NumberOfBuffers s =? 0 then 0%Q
  else
    Float64.mul
      (Float64.div
         (Float64.of_uint32 (U32.sub (NumberOfBuffers s) (FreeBuffers s)))
         (Float64.of_uint32 (NumberOfBuffers s)))
      100%Q.

(** [func (s *ETWSession) TotalMemoryMB() float64] *)
Definition TotalMemoryMB (s : ETWSession) : Q :=
  Float64.div
    (Float64.of_uint32 (U32.mul (NumberOfBuffers s) (BufferSize s)))
    1024%Q.

(** ** Layout of the native structures (main.go, lines 27-57)

    Go lays a struct out field by field, each at the next multiple of its
    alignment; the size is rounded up to the largest alignment.  Sizes and
    alignments are those of GOARCH=amd64, where [uintptr] has 8 bytes. *)

Module Layout.

Record field : Type := mkField { f_name : string; f_size : Z; f_align : Z }.

Definition align_up (off a : Z) : Z := (off + a - 1) / a * a.

Fixpoint offsets (off : Z) (fs : list field) : list (string * Z) :=
  match fs with
  | [] => []
  | f :: fs' =>
      let o := align_up off (f_align f) in
      (f_name f, o) :: offsets (o + f_size f) fs'
  end.

Fixpoint end_offset (off : Z) (fs : list field) : Z :=
  match fs with
  | [] => off
  | f :: fs' => end_offset (align_up off (f_align f) + f_size f) fs'
  end.

Definition alignof (fs : list field) : Z :=
  foldr (fun f a => Z.max (f_align f) a) 1 fs.

Definition sizeof (fs : list field) : Z :=
  align_up (end_offset 0 fs) (alignof fs).

Fixpoint assoc (name : string) (l : list (string * Z)) : Z :=
  match l with
  | [] => 0
  | (n, o) :: l' => if String.eqb n name then o else assoc name l'
  end.

Definition offsetof (name : string) (fs : list field) : Z :=
  assoc name (offsets 0 fs).

Definition uint32 (n : string) : field := mkField n 4 4.
Definition int32 (n : string) : field := mkField n 4 4.
Definition uint64 (n : string) : field := mkField n 8 8.
Definition int64 (n : string) : field := mkField n 8 8.
Definition uintptr (n : string) : field := mkField n 8 8.
Definition bytes (n : string) (len : Z) : field := mkField n len 1.
Definition struct (n : string) (fs : list field) : field :=
  mkField n (sizeof fs) (alignof fs).

Definition WNODE_HEADER : list field :=
  [ uint32 "BufferSize"; uint32 "ProviderId"; uint64 "HistoricalContext";
    int64 "TimeStamp"; bytes "Guid" 16; uint32 "ClientContext";
    uint32 "Flags" ].

Definition EVENT_TRACE_PROPERTIES : list field :=
  [ struct "Wnode" WNODE_HEADER;
    uint32 "BufferSize"; uint32 "MinimumBuffers"; uint32 "MaximumBuffers";
    uint32 "MaximumFileSize"; uint32 "LogFileMode"; uint32 "FlushTimer";
    uint32 "EnableFlags"; int32 "AgeLimit"; uint32 "NumberOfBuffers";
    uint32 "FreeBuffers"; uint32 "EventsLost"; uint32 "BuffersWritten";
    uint32 "LogBuffersLost"; uint32 "RealTimeBuffersLost";
    uintptr "LoggerThreadId"; uint32 "LogFileNameOffset";
    uint32 "LoggerNameOffset" ].

End Layout.

(** [unsafe.Sizeof(EVENT_TRACE_PROPERTIES{})] *)
Definition sizeof_EVENT_TRACE_PROPERTIES : Z :=
  Eval vm_compute in Layout.sizeof Layout.EVENT_TRACE_PROPERTIES.

(** Offset of a field of [EVENT_TRACE_PROPERTIES] from the record's start. *)
Definition field_offset (name : string) : Z :=
  Layout.offsetof name Layout.EVENT_TRACE_PROPERTIES.

(** [props.Wnode.BufferSize]: [Wnode] is the first field and [BufferSize]
    the first field of [WNODE_HEADER]. *)
Definition Wnode_BufferSize_offset : Z :=
  field_offset "Wnode" + Layout.offsetof "BufferSize" Layout.WNODE_HEADER.

(** ** Raw memory

    The only memory [QueryAllSessions] addresses through [unsafe.Pointer]
    is its own [buffer]; an address is a byte offset from the start of that
    buffer.  Memory is little-endian (every Windows target of Go is).  An
    access outside the buffer has no defined result: it is [None]. *)

Module Mem.

Definition peek8 (mem : list Z) (a : Z) : option Z :=
  if a <? 0 then None else mem !! Z.to_nat a.

Definition peek16 (mem : list Z) (a : Z) : option Z :=
  lo ← peek8 mem a;
  hi ← peek8 mem (a + 1);
  Some (lo + 256 * hi).

Definition peek32 (mem : list Z) (a : Z) : option Z :=
  lo ← peek16 mem a;
  hi ← peek16 mem (a + 2);
  Some (lo + 65536 * hi).

Definition poke8 (mem : list Z) (a v : Z) : option (list Z) :=
  if (0 <=? a) && (a <? Z.of_nat (length mem))
  then Some (<[Z.to_nat a := v mod 256]> mem)
  else None.

Definition poke32 (mem : list Z) (a v : Z) : option (list Z) :=
  mem ← poke8 mem a v;
  mem ← poke8 mem (a + 1) (v / 256);
  mem ← poke8 mem (a + 2) (v / 65536);
  poke8 mem (a + 3) (v / 16777216).

End Mem.

(** ** WideStringDecoder (main.go, lines 95-122) *)

Module utf16.

Definition surr1 : Z := 0xd800.
Definition surr2 : Z := 0xdc00.
Definition surr3 : Z := 0xe000.
Definition surrSelf : Z := 0x10000.
Definition replacementChar : Z := 0xFFFD.

(** [utf16.DecodeRune] on a valid surrogate pair. *)
Definition DecodeRune (r1 r2 : Z) : Z :=
  Z.lor (Z.shiftl (r1 - surr1) 10) (r2 - surr2) + surrSelf.

(** [utf16.Decode]: code units to runes; a lone surrogate becomes U+FFFD. *)
Fixpoint Decode (s : list Z) : list Z :=
  match s with
  | [] => []
  | r :: s' =>
      if (r <? surr1) || (surr3 <=? r) then r :: Decode s'
      else
        match s' with
        | r2 :: s'' =>
            if (r <? surr2) && (surr2 <=? r2) && (r2 <? surr3)
            then DecodeRune r r2 :: Decode s''
            else replacementChar :: Decode s'
        | [] => [replacementChar]
        end
  end.

End utf16.

Module utf8.

Definition MaxRune : Z := 0x10FFFF.

(** [utf8.AppendRune]: the UTF-8 bytes of one rune; a surrogate or a value
    above [MaxRune] is encoded as U+FFFD. *)
Definition EncodeRune (r : Z) : list Z :=
  if (0 <=? r) && (r <? 0x80) then [r]
  else if (0 <=? r) && (r <? 0x800) then
    [Z.lor 0xC0 (Z.shiftr r 6); Z.lor 0x80 (Z.land r 0x3F)]
  else if (r <? 0) || (MaxRune <? r) || ((0xD800 <=? r) && (r <=? 0xDFFF)) then
    [0xEF; 0xBF; 0xBD]
  else if r <? 0x10000 then
    [Z.lor 0xE0 (Z.shiftr r 12); Z.lor 0x80 (Z.land (Z.shiftr r 6) 0x3F);
     Z.lor 0x80 (Z.land r 0x3F)]
  else
    [Z.lor 0xF0 (Z.shiftr r 18); Z.lor 0x80 (Z.land (Z.shiftr r 12) 0x3F);
     Z.lor 0x80 (Z.land (Z.shiftr r 6) 0x3F); Z.lor 0x80 (Z.land r 0x3F)].

End utf8.

(** A Go string from its bytes. *)
Fixpoint string_of_bytes (bs : list Z) : string :=
  match bs with
  | [] => EmptyString
  | b :: bs' => String (Ascii.ascii_of_N (Z.to_N b)) (string_of_bytes bs')
  end.

(** [string(runes)]: the UTF-8 encoding of a rune slice. *)
Definition string_of_runes (rs : list Z) : string :=
  string_of_bytes (concat (map utf8.EncodeRune rs)).

(** The first loop of [utf16PtrToString]: count code units up to the first
    zero one.  [bytes] is memory from the pointer on; running off the end of
    memory before a terminator is a fault. *)
Fixpoint scan_length (bytes : list Z) : option Z :=
  match bytes with
  | lo :: hi :: rest =>
      if lo + 256 * hi =? 0 then Some 0
      else length ← scan_length rest; Some (length + 1)
  | _ => None
  end.

(** [func utf16PtrToString(ptr *uint16) string]; [None] as pointer is
    [nil], [None] as result is a fault. *)
Definition utf16PtrToString (mem : list Z) (ptr : option Z) : option string :=
  match ptr with
  | None => Some EmptyString
  | Some p =>
      if p <? 0 then None
      else
        length ← scan_length (drop (Z.to_nat p) mem);
        if length =? 0 then Some EmptyString
        else
          utf16Slice ← mapM (fun i => Mem.peek16 mem (p + i * 2)) (seqZ 0 length);
          Some (string_of_runes (utf16.Decode utf16Slice))
  end.

(** ** The world outside the program *)

(** The tracing subsystem and the clock, as [QueryAllSessions] meets them
    during one invocation.
    - [sizing_call]: status and session count written by
      [QueryAllTracesW(NULL, 0, &sessionCount)];
    - [data_call buffer sessionArray count]: status, session count written
      back and the memory as [QueryAllTracesW(&sessionArray[0], count,
      &sessionCount)] leaves it;
    - [clock n]: the instant the [n]-th call of [time.Now] returns. *)
Record World : Type := mkWorld {
  sizing_call : Z * Z;
  data_call : list Z -> list Z -> Z -> Z * Z * list Z;
  clock : nat -> Time
}.

(** [fmt.Errorf(format, arg)] with its one [%d] argument. *)
Inductive error : Type :=
| Errorf (format : string) (arg : Z).

#[global] Instance error_eq_dec : EqDecision error.
Proof. solve_decision. Defined.

(** How a Go function ends: it returns a value with a [nil] error, returns
    an error, or does not return (a run-time panic or a memory fault). *)
Inductive result (A : Type) : Type :=
| Ok (a : A)
| Failed (e : error)
| Crash (why : string).
Arguments Ok {A} a.
Arguments Failed {A} e.
Arguments Crash {A} why.

(** [type ETWBufferMonitor struct] (main.go, lines 124-135) *)
Record ETWBufferMonitor : Type := mkMonitor {
  monitoring : bool;
  monitor_sessions : list ETWSession
}.

Definition NewETWBufferMonitor : ETWBufferMonitor :=
  {| monitoring := false; monitor_sessions := [] |}.

(** The state a query threads: the receiver and the number of clock
    readings taken so far. *)
Record QState : Type := mkQState {
  receiver : ETWBufferMonitor;
  clock_reads : nat
}.

Definition M (A : Type) : Type := QState -> result A * QState.

#[global] Instance M_ret : MRet M := fun A a st => (Ok a, st).
#[global] Instance M_bind : MBind M := fun A B f c st =>
  match c st with
  | (Ok a, st') => f a st'
  | (Failed e, st') => (Failed e, st')
  | (Crash why, st') => (Crash why, st')
  end.

Definition fail {A} (e : error) : M A := fun st => (Failed e, st).
Definition crash {A} (why : string) : M A := fun st => (Crash why, st).

(** A raw memory access or a slice index: a fault when undefined. *)
Definition access {A} (why : string) (o : option A) : M A :=
  match o with
  | Some a => mret a
  | None => crash why
  end.

(** A computation that never ends with an error value. *)
Definition never_fails {A} (c : M A) : Prop :=
  forall st e st', c st <> (Failed e, st').

(** [time.Now()] *)
Definition time_Now (w : World) : M Time := fun st =>
  (Ok (clock w (clock_reads st)),
   {| receiver := receiver st; clock_reads := S (clock_reads st) |}).

(** [m.sessions = sessions] *)
Definition set_sessions (sessions : list ETWSession) : M unit := fun st =>
  (Ok tt,
   {| receiver := {| monitoring := monitoring (receiver st);
                     monitor_sessions := sessions |};
      clock_reads := clock_reads st |}).

(** ** sort.Slice

    [sort.Slice] is Go's library sort: it permutes the slice so that no
    element is [less] than one before it (it is not stable).  It is modelled
    by insertion, which is also what the library runs on short slices. *)

Fixpoint sort_insert {A} (less : A -> A -> bool) (x : A) (l : list A) : list A :=
  match l with
  | [] => [x]
  | y :: l' => if less x y then x :: y :: l' else y :: sort_insert less x l'
  end.

Definition sort_Slice {A} (less : A -> A -> bool) (l : list A) : list A :=
  foldl (fun sorted x => sort_insert less x sorted) [] l.

(** [ordered less x y]: [y] may follow [x] in a slice sorted by [less]. *)
Definition ordered {A} (less : A -> A -> bool) (x y : A) : Prop :=
  less y x = false.

(** ** SessionQueryEngine (main.go, lines 413-500) *)

(** [const propertySize = unsafe.Sizeof(EVENT_TRACE_PROPERTIES{}) +
    MAX_SESSION_NAME_LEN*2] *)
Definition propertySize : Z :=
  sizeof_EVENT_TRACE_PROPERTIES + MAX_SESSION_NAME_LEN * 2.

(** One iteration of the allocation loop (lines 437-447). *)
Definition init_slot (acc : list Z * list Z) (i : Z)
  : option (list Z * list Z) :=
  let '(buffer, sessionArray) := acc in
  let index := U32.mul i (U32.wrap propertySize) in
  (* &buffer[i*uint32(propertySize)] is bounds-checked *)
  _ ← Mem.peek8 buffer index;
  let props := index in
  buffer ← Mem.poke32 buffer (props + Wnode_BufferSize_offset)
             (U32.wrap propertySize);
  buffer ← Mem.poke32 buffer (props + field_offset "LoggerNameOffset")
             (U32.wrap sizeof_EVENT_TRACE_PROPERTIES);
  LoggerNameOffset ← Mem.peek32 buffer (props + field_offset "LoggerNameOffset");
  buffer ← Mem.poke32 buffer (props + field_offset "LogFileNameOffset")
             (U32.add LoggerNameOffset MAX_SESSION_NAME_LEN);
  if decide (Z.to_nat i < length sessionArray)%nat
  then Some (buffer, <[Z.to_nat i := props]> sessionArray)
  else None.

(** The allocation phase (lines 432-447): the zeroed [buffer], the
    [sessionArray] of header addresses, and the loop over the slots. *)
Definition allocate (sessionCount : Z) : option (list Z * list Z) :=
  let buffer := replicate (Z.to_nat (sessionCount * propertySize)) 0 in
  let sessionArray := replicate (Z.to_nat sessionCount) 0 in
  foldl (fun acc i => acc ← acc; init_slot acc i)
        (Some (buffer, sessionArray)) (seqZ 0 sessionCount).

(** One iteration of the decoding loop (lines 459-489). *)
Definition decode_session (w : World) (buffer sessionArray : list Z) (i : Z)
  : M ETWSession :=
  props ← access "index out of range" (sessionArray !! Z.to_nat i);
  let field name := access "invalid memory address"
                      (Mem.peek32 buffer (props + field_offset name)) in
  LoggerNameOffset ← field "LoggerNameOffset";
  let namePtr := props + LoggerNameOffset in
  sessionName ← access "invalid memory address"
                  (utf16PtrToString buffer (Some namePtr));
  LogFileNameOffset ← field "LogFileNameOffset";
  logFileName ←
    (if LogFileNameOffset >? 0
     then access "invalid memory address"
            (utf16PtrToString buffer (Some (props + LogFileNameOffset)))
     else mret EmptyString);
  bufferSize ← field "BufferSize";
  minimumBuffers ← field "MinimumBuffers";
  maximumBuffers ← field "MaximumBuffers";
  numberOfBuffers ← field "NumberOfBuffers";
  freeBuffers ← field "FreeBuffers";
  buffersWritten ← field "BuffersWritten";
  eventsLost ← field "EventsLost";
  realTimeBuffersLost ← field "RealTimeBuffersLost";
  logFileMode ← field "LogFileMode";
  now ← time_Now w;
  mret {| Name := sessionName;
          BufferSize := bufferSize;
          MinimumBuffers := minimumBuffers;
          MaximumBuffers := maximumBuffers;
          NumberOfBuffers := numberOfBuffers;
          FreeBuffers := freeBuffers;
          BuffersWritten := buffersWritten;
          EventsLost := eventsLost;
          RealTimeBuffersLost := realTimeBuffersLost;
          LogFileMode := logFileMode;
          LogFileName := logFileName;
          Timestamp := now |}.

(** The decoding loop: [sessions = append(sessions, session)] for each
    index in turn. *)
Fixpoint decode_loop (w : World) (buffer sessionArray : list Z)
    (indices : list Z) (sessions : list ETWSession) : M (list ETWSession) :=
  match indices with
  | [] => mret sessions
  | i :: indices' =>
      session ← decode_session w buffer sessionArray i;
      decode_loop w buffer sessionArray indices' (sessions ++ [session])
  end.

(** The comparison handed to [sort.Slice]. *)
Definition less (a b : ETWSession) : bool := String.ltb (Name a) (Name b).

(** [a.Name <= b.Name], bytewise. *)
Definition name_le (a b : ETWSession) : Prop :=
  String.leb (Name a) (Name b) = true.

(** [func (m *ETWBufferMonitor) QueryAllSessions() ([]ETWSession, error)] *)
Definition QueryAllSessions (w : World) : M (list ETWSession) :=
  let '(ret, sessionCount) := sizing_call w in
  if negb (ret =? ERROR_MORE_DATA) then
    fail (Errorf "failed to get session count, error: %d" ret)
  else if sessionCount =? 0 then
    mret []
  else
    '(buffer, sessionArray) ← access "index out of range" (allocate sessionCount);
    let '(ret, sessionCount, buffer) := data_call w buffer sessionArray sessionCount in
    if ret =? ERROR_SUCCESS then
      sessions ← decode_loop w buffer sessionArray (seqZ 0 sessionCount) [];
      let sessions := sort_Slice less sessions in
      _ ← set_sessions sessions;
      mret sessions
    else
      fail (Errorf "failed to query sessions, error: %d" ret).

(** ** The Bubble Tea model (main.go, lines 137-219) *)

Record model : Type := mkModel {
  monitor : ETWBufferMonitor;
  sessions : list ETWSession;
  previousSessions : gmap string ETWSession;
  lastUpdate : Time;
  intervalSeconds : Z;
  showOnce : bool;
  err : option error;
  exiting : bool
}.

(** The messages [Update] receives; [otherMsg] is any message of the
    framework the [switch] has no case for. *)
Inductive Msg : Type :=
| KeyMsg (key : string)
| tickMsg (t : Time)
| sessionsMsg (l : list ETWSession)
| errMsg (e : error)
| otherMsg.

(** The commands [Init] and [Update] return. *)
#[warnings="-register-all"]
Inductive Cmd : Type :=
| cmd_nil
| tea_Quit
| tea_Tick (seconds : Z)
| querySessionsCmd
| tea_Batch (cmds : list Cmd).

(** [func initialModel(intervalSeconds int, showOnce bool) model];
    [now] is the reading of [time.Now()]. *)
Definition initialModel (now : Time) (intervalSeconds : Z) (showOnce : bool)
  : model :=
  {| monitor := NewETWBufferMonitor;
     sessions := [];
     previousSessions := ∅;
     lastUpdate := now;
     intervalSeconds := intervalSeconds;
     showOnce := showOnce;
     err := None;
     exiting := false |}.

(** [func (m model) Init() tea.Cmd] *)
Definition Init (m : model) : Cmd :=
  tea_Batch [tea_Tick (intervalSeconds m); querySessionsCmd].

(** The loop of lines 205-207: [m.previousSessions[session.Name] = session]
    for each session of [m.sessions] in order.  A Go map is a reference:
    the writes reach the one map every copy of the model shares. *)
Definition store_previous (previous : gmap string ETWSession)
    (sessions : list ETWSession) : gmap string ETWSession :=
  foldl (fun previous session => <[Name session := session]> previous)
        previous sessions.

(** [func (m model) Update(msg tea.Msg) (tea.Model, tea.Cmd)];
    [now] is the reading of [time.Now()] of line 209. *)
Definition Update (now : Time) (m : model) (msg : Msg) : model * Cmd :=
  match msg with
  | KeyMsg key =>
      if String.eqb key "q" || String.eqb key "ctrl+c" then
        ({| monitor := monitor m; sessions := sessions m;
            previousSessions := previousSessions m;
            lastUpdate := lastUpdate m;
            intervalSeconds := intervalSeconds m; showOnce := showOnce m;
            err := err m; exiting := true |}, tea_Quit)
      else (m, cmd_nil)
  | tickMsg _ =>
      if showOnce m then (m, cmd_nil)
      else (m, tea_Batch [tea_Tick (intervalSeconds m); querySessionsCmd])
  | sessionsMsg msg =>
      let m' :=
        {| monitor := monitor m; sessions := msg;
           previousSessions := store_previous (previousSessions m) (sessions m);
           lastUpdate := now;
           intervalSeconds := intervalSeconds m; showOnce := showOnce m;
           err := err m; exiting := exiting m |} in
      if showOnce m then (m', tea_Quit) else (m', cmd_nil)
  | errMsg e =>
      ({| monitor := monitor m; sessions := sessions m;
          previousSessions := previousSessions m;
          lastUpdate := lastUpdate m;
          intervalSeconds := intervalSeconds m; showOnce := showOnce m;
          err := Some e; exiting := exiting m |}, cmd_nil)
  | otherMsg => (m, cmd_nil)
  end.

(** ** The event loop

    The framework keeps the model, runs the commands [Init] and [Update]
    return, and delivers what they produce as messages: a [tea.Tick]
    delivers one [tickMsg], a [querySessionsCmd] one [sessionsMsg] or one
    [errMsg].  Key presses and framework messages arrive at any time.
    [polls] records the snapshots delivered so far, the latest first. *)

Record Program : Type := mkProgram {
  current : model;
  timers : nat;
  queries : nat;
  quitting : bool;
  polls : list (list ETWSession)
}.

Fixpoint launch (c : Cmd) (p : Program) : Program :=
  match c with
  | cmd_nil => p
  | tea_Quit =>
      {| current := current p; timers := timers p; queries := queries p;
         quitting := true; polls := polls p |}
  | tea_Tick _ =>
      {| current := current p; timers := S (timers p); queries := queries p;
         quitting := quitting p; polls := polls p |}
  | querySessionsCmd =>
      {| current := current p; timers := timers p; queries := S (queries p);
         quitting := quitting p; polls := polls p |}
  | tea_Batch cmds =>
      (fix run (cmds : list Cmd) (p : Program) : Program :=
         match cmds with
         | [] => p
         | c :: cmds' => run cmds' (launch c p)
         end) cmds p
  end.

(** Deliver one message: run [Update], keep the model, launch the command. *)
Definition deliver (now : Time) (msg : Msg) (p : Program) : Program :=
  let '(m, c) := Update now (current p) msg in
  launch c {| current := m; timers := timers p; queries := queries p;
              quitting := quitting p; polls := polls p |}.

(** [tea.NewProgram(initialModel(intervalSeconds, showOnce)).Run()] up to
    the first message. *)
Definition start (now : Time) (intervalSeconds : Z) (showOnce : bool)
  : Program :=
  let m := initialModel now intervalSeconds showOnce in
  launch (Init m)
    {| current := m; timers := 0; queries := 0; quitting := false;
       polls := [] |}.

Inductive step : Program -> Program -> Prop :=
| step_key p now key :
    step p (deliver now (KeyMsg key) p)
| step_other p now :
    step p (deliver now otherMsg p)
| step_tick p now t n :
    timers p = S n ->
    step p (deliver now (tickMsg t)
              {| current := current p; timers := n; queries := queries p;
                 quitting := quitting p; polls := polls p |})
| step_sessions p now l n :
    queries p = S n ->
    step p (deliver now (sessionsMsg l)
              {| current := current p; timers := timers p; queries := n;
                 quitting := quitting p; polls := l :: polls p |})
| step_err p now e n :
    queries p = S n ->
    step p (deliver now (errMsg e)
              {| current := current p; timers := timers p; queries := n;
                 quitting := quitting p; polls := polls p |}).

(** The states the program passes through, from either entry point:
    [StartMonitoring(intervalSeconds)] and [ShowOnce()]. *)
Inductive reachable : Program -> Prop :=
| reach_start now intervalSeconds showOnce :
    reachable (start now intervalSeconds showOnce)
| reach_step p p' :
    reachable p -> step p p' -> reachable p'.

(** ** DashboardPresenter (main.go, lines 221-411) *)

(** [lipgloss.NewStyle().Foreground(lipgloss.Color(colour))] *)
Inductive Style : Type :=
| Foreground (colour : string).

#[global] Instance Style_eq_dec : EqDecision Style.
Proof. solve_decision. Defined.

(** An argument of [fmt.Sprintf], with the verb that prints it. *)
Inductive Arg : Type :=
| arg_s (s : string)              (* %s *)
| arg_d (n : Z)                   (* %d *)
| arg_f (decimals : Z) (x : Q).   (* %.1f, %.2f *)

(** The zero value of [ETWSession], which a map lookup yields for a key
    that is absent. *)
Definition zero_session : ETWSession :=
  mkETWSession EmptyString 0 0 0 0 0 0 0 0 0 EmptyString 0.

(** Lines 313-318: [previousSession, existed := m.previousSessions[...]]
    and the comparison of the four watched counters. *)
Definition hasChanges (m : model) (session : ETWSession) : bool :=
  let '(previousSession, existed) :=
    match previousSessions m !! Name session with
    | Some previousSession => (previousSession, true)
    | None => (zero_session, false)
    end in
  existed &&
  (negb (NumberOfBuffers previousSession =? NumberOfBuffers session)
   || negb (FreeBuffers previousSession =? FreeBuffers session)
   || negb (EventsLost previousSession =? EventsLost session)
   || negb (BuffersWritten previousSession =? BuffersWritten session)).

(** Lines 320-329: the colour of a row. *)
Definition rowStyle (m : model) (session : ETWSession) : Style :=
  let utilization := UtilizationPercent session in
  if EventsLost session >? 0 then
    Foreground "196"        (* Red for lost events *)
  else if Float64.gtb utilization 80%Q then
    Foreground "208"        (* Orange for high utilization *)
  else if hasChanges m session && negb (showOnce m) then
    Foreground "120"        (* Subtle green for changes *)
  else
    Foreground "252".       (* Normal *)

Record Row : Type := mkRow {
  row_style : Style;
  row_format : string;
  row_args : list Arg
}.

(** Lines 302-344: one row of the table. *)
Definition view_row (m : model) (session : ETWSession) : Row :=
  let sessionName :=
    if (29 <? String.length (Name session))%nat
    then String.substring 0 29 (Name session)
    else Name session in
  let utilization := UtilizationPercent session in
  let memory := TotalMemoryMB session in
  {| row_style := rowStyle m session;
     row_format := "%-30s %-12d %-8d %-8d %-8d %-6d %-10d %-10d %-8.1f %-12.1f";
     row_args :=
       [ arg_s sessionName;
         arg_d (BufferSize session);
         arg_d (MinimumBuffers session);
         arg_d (MaximumBuffers session);
         arg_d (NumberOfBuffers session);
         arg_d (FreeBuffers session);
         arg_d (BuffersWritten session);
         arg_d (EventsLost session);
         arg_f 1 utilization;
         arg_f 1 memory ] |}.

(** The labels of the table's columns (line 292). *)
Definition table_header : list string :=
  [ "Session Name"; "Buffer(KB)"; "Min"; "Max"; "Current"; "Free";
    "Written"; "Lost"; "Util%"; "Memory(MB)" ].

Record Totals : Type := mkTotals {
  totalMemory : Q;
  totalUtilization : Q;
  totalEventsLost : Z
}.

(** Lines 346-348, accumulated over the rows. *)
Definition add_totals (t : Totals) (session : ETWSession) : Totals :=
  {| totalMemory := Float64.add (totalMemory t) (TotalMemoryMB session);
     totalUtilization :=
       Float64.add (totalUtilization t) (UtilizationPercent session);
     totalEventsLost := U32.add (totalEventsLost t) (EventsLost session) |}.

Record Warnings : Type := mkWarnings {
  highUtilSessions : Z;
  lostEventSessions : Z
}.

(** Lines 373-382: the two warning tallies. *)
Definition count_warnings (sessions : list ETWSession) : Warnings :=
  foldl (fun w session =>
           let high :=
             if Float64.gtb (UtilizationPercent session) 80%Q
             then highUtilSessions w + 1 else highUtilSessions w in
           let lost :=
             if EventsLost session >? 0
             then lostEventSessions w + 1 else lostEventSessions w in
           {| highUtilSessions := high; lostEventSessions := lost |})
        {| highUtilSessions := 0; lostEventSessions := 0 |} sessions.

(** What [View] draws. *)
Inductive Screen : Type :=
| ShuttingDown
| ErrorScreen (e : error)
| NoSessions
| Dashboard (rows : list Row) (totals : Totals) (average : Q)
            (warnings : option Warnings).

(** [func (m model) View() string], up to the text of the frame. *)
Definition View (m : model) : Screen :=
  if exiting m then ShuttingDown
  else
    match err m with
    | Some e => ErrorScreen e
    | None =>
        match sessions m with
        | [] => NoSessions
        | _ =>
            let rows := map (view_row m) (sessions m) in
            let totals := foldl add_totals (mkTotals 0%Q 0%Q 0) (sessions m) in
            let average :=
              Float64.div (totalUtilization totals)
                (Float64.of_int (Z.of_nat (length (sessions m)))) in
            let w := count_warnings (sessions m) in
            Dashboard rows totals average
              (if (highUtilSessions w >? 0) || (lostEventSessions w >? 0)
               then Some w else None)
        end
    end.

(** ** Tabular export (main.go, lines 502-549) *)

(** A field of a CSV record, with the call that prints it:
    [Timestamp.Format(layout)], a string as it is, [strconv.FormatUint(n,
    10)], [fmt.Sprintf("%.2f", x)]. *)
Inductive Field : Type :=
| field_time (layout : string) (t : Time)
| field_string (s : string)
| field_uint (n : Z)
| field_float (decimals : Z) (x : Q).

Definition csv_header : list string :=
  [ "Timestamp"; "SessionName"; "BufferSize_KB"; "MinBuffers"; "MaxBuffers";
    "NumberOfBuffers"; "FreeBuffers"; "BuffersWritten"; "EventsLost";
    "RealTimeBuffersLost"; "UtilizationPercent"; "TotalMemory_MB";
    "LogFileName" ].

(** Lines 526-540: the record of one session. *)
Definition csv_record (session : ETWSession) : list Field :=
  [ field_time "2006-01-02 15:04:05" (Timestamp session);
    field_string (Name session);
    field_uint (BufferSize session);
    field_uint (MinimumBuffers session);
    field_uint (MaximumBuffers session);
    field_uint (NumberOfBuffers session);
    field_uint (FreeBuffers session);
    field_uint (BuffersWritten session);
    field_uint (EventsLost session);
    field_uint (RealTimeBuffersLost session);
    field_float 2 (UtilizationPercent session);
    field_float 2 (TotalMemoryMB session);
    field_string (LogFileName session) ].

(** The records [ExportToCSV] hands to the writer, in order. *)
Definition csv_records (sessions : list ETWSession) : list (list Field) :=
  map csv_record sessions.

(** ** A tracing subsystem to run the engine against

    [Subsystem.world traces readings] answers the sizing call with the
    number of [traces] and the data call by writing each trace into its
    slot, names at the offsets the header announces, as [QueryAllTracesW]
    does.  It serves to run [QueryAllSessions] on concrete inputs. *)

Module Subsystem.

Record Trace : Type := mkTrace {
  t_name : string;
  t_logFile : string;
  t_BufferSize : Z;
  t_MinimumBuffers : Z;
  t_MaximumBuffers : Z;
  t_NumberOfBuffers : Z;
  t_FreeBuffers : Z;
  t_BuffersWritten : Z;
  t_EventsLost : Z;
  t_RealTimeBuffersLost : Z;
  t_LogFileMode : Z
}.

(** The UTF-16 code units of an ASCII string, little-endian, with the
    terminating zero unit. *)
Fixpoint wide (s : string) : list Z :=
  match s with
  | EmptyString => [0; 0]
  | String c s' => Z.of_N (Ascii.N_of_ascii c) :: 0 :: wide s'
  end.

Fixpoint poke_bytes (mem : list Z) (a : Z) (bs : list Z) : option (list Z) :=
  match bs with
  | [] => Some mem
  | b :: bs' => mem ← Mem.poke8 mem a b; poke_bytes mem (a + 1) bs'
  end.

Definition fill_slot (mem : list Z) (props : Z) (t : Trace)
  : option (list Z) :=
  let put name v mem := Mem.poke32 mem (props + field_offset name) v in
  nameOffset ← Mem.peek32 mem (props + field_offset "LoggerNameOffset");
  fileOffset ← Mem.peek32 mem (props + field_offset "LogFileNameOffset");
  mem ← poke_bytes mem (props + nameOffset) (wide (t_name t));
  mem ← poke_bytes mem (props + fileOffset) (wide (t_logFile t));
  mem ← put "BufferSize" (t_BufferSize t) mem;
  mem ← put "MinimumBuffers" (t_MinimumBuffers t) mem;
  mem ← put "MaximumBuffers" (t_MaximumBuffers t) mem;
  mem ← put "NumberOfBuffers" (t_NumberOfBuffers t) mem;
  mem ← put "FreeBuffers" (t_FreeBuffers t) mem;
  mem ← put "BuffersWritten" (t_BuffersWritten t) mem;
  mem ← put "EventsLost" (t_EventsLost t) mem;
  mem ← put "RealTimeBuffersLost" (t_RealTimeBuffersLost t) mem;
  put "LogFileMode" (t_LogFileMode t) mem.

Fixpoint fill (mem : list Z) (sessionArray : list Z) (traces : list Trace)
  : option (list Z) :=
  match traces, sessionArray with
  | [], _ => Some mem
  | t :: traces', props :: sessionArray' =>
      mem ← fill_slot mem props t; fill mem sessionArray' traces'
  | _ :: _, [] => None
  end.

Definition respond (traces : list Trace) (buffer sessionArray : list Z)
    (count : Z) : Z * Z * list Z :=
  match fill buffer sessionArray traces with
  | Some buffer' => (ERROR_SUCCESS, Z.of_nat (length traces), buffer')
  | None => (ERROR_MORE_DATA, Z.of_nat (length traces), buffer)
  end.

Definition world (traces : list Trace) (readings : nat -> Time) : World :=
  {| sizing_call := (ERROR_MORE_DATA, Z.of_nat (length traces));
     data_call := respond traces;
     clock := readings |}.

End Subsystem.

(** The state of a fresh monitor. *)
Definition fresh : QState :=
  {| receiver := NewETWBufferMonitor; clock_reads := 0 |}.

(** ** The properties of the design, as definitions

    The definitions below do not come from [main.go]: they word what the
    design document says, to be compared with the code. *)

Module AllocationSpec.

(** The bytes a text region needs for [MAX_SESSION_NAME_LEN] wide
    characters. *)
Definition text_region_bytes : Z := MAX_SESSION_NAME_LEN * 2.

(** What the allocation phase leaves in the header at [props]. *)
Definition slot_initialised (buffer : list Z) (props : Z) : Prop :=
  Mem.peek32 buffer (props + Wnode_BufferSize_offset)
    = Some (sizeof_EVENT_TRACE_PROPERTIES + MAX_SESSION_NAME_LEN * 2) /\
  Mem.peek32 buffer (props + field_offset "LoggerNameOffset")
    = Some sizeof_EVENT_TRACE_PROPERTIES /\
  Mem.peek32 buffer (props + field_offset "LogFileNameOffset")
    = Some (sizeof_EVENT_TRACE_PROPERTIES + MAX_SESSION_NAME_LEN).

(** The header the design asks for: the total size is the header plus two
    text regions, the name region starts after the header, and the log
    file name starts no earlier than the end of the name region. *)
Definition slot_as_designed (buffer : list Z) (props : Z) : Prop :=
  exists total nameOffset fileOffset,
    Mem.peek32 buffer (props + Wnode_BufferSize_offset) = Some total /\
    Mem.peek32 buffer (props + field_offset "LoggerNameOffset")
      = Some nameOffset /\
    Mem.peek32 buffer (props + field_offset "LogFileNameOffset")
      = Some fileOffset /\
    total = sizeof_EVENT_TRACE_PROPERTIES + 2 * text_region_bytes /\
    sizeof_EVENT_TRACE_PROPERTIES <= nameOffset /\
    nameOffset + text_region_bytes <= fileOffset /\
    fileOffset + text_region_bytes <= total.

End AllocationSpec.

Module StoreSpec.

(** The last record of a snapshot that carries the name [k]. *)
Fixpoint record_of (k : string) (snapshot : list ETWSession)
  : option ETWSession :=
  match snapshot with
  | [] => None
  | s :: snapshot' =>
      match record_of k snapshot' with
      | Some r => Some r
      | None => if decide (Name s = k) then Some s else None
      end
  end.

(** What a store keyed by name retains for [k], given the superseded
    snapshots, the latest first: the record of the most recent one that has
    the name. *)
Fixpoint retained (older : list (list ETWSession)) (k : string)
  : option ETWSession :=
  match older with
  | [] => None
  | snapshot :: older' =>
      match record_of k snapshot with
      | Some r => Some r
      | None => retained older' k
      end
  end.

(** The snapshot of the poll before the latest one. *)
Definition preceding (p : Program) : list ETWSession :=
  default [] (polls p !! 1%nat).

(** "Previous always means the result of the immediately preceding
    completed poll, never older history": every retained name has a record
    in the preceding poll's snapshot. *)
Definition retains_only_preceding (p : Program) : Prop :=
  forall k : string,
    is_Some (previousSessions (current p) !! k) ->
    exists r, r ∈ preceding p /\ Name r = k.

(** "Never retained beyond the most recent two cycles": every retained
    name has a record in the latest snapshot or in the preceding one. *)
Definition retains_only_recent (p : Program) : Prop :=
  forall k : string,
    is_Some (previousSessions (current p) !! k) ->
    exists r, r ∈ concat (take 2 (polls p)) /\ Name r = k.

End StoreSpec.

Module DashboardSpec.

(** "High utilization (>80%)" and "lost events". *)
Definition high_utilization (s : ETWSession) : bool :=
  Float64.gtb (UtilizationPercent s) 80%Q.

Definition lost_events (s : ETWSession) : bool := EventsLost s >? 0.

(** The number of sessions a predicate holds of. *)
Fixpoint tally (f : ETWSession -> bool) (l : list ETWSession) : Z :=
  match l with
  | [] => 0
  | s :: l' => (if f s then 1 else 0) + tally f l'
  end.

(** The four severities, in priority order, and the colour of each. *)
Inductive Severity : Type :=
| LostEvents
| HighUtilization
| ChangedSinceLastPoll
| Normal.

Definition colour_of (sev : Severity) : Style :=
  match sev with
  | LostEvents => Foreground "196"
  | HighUtilization => Foreground "208"
  | ChangedSinceLastPoll => Foreground "120"
  | Normal => Foreground "252"
  end.

(** "Evaluated in that priority order, first match wins": a rule applies
    only when no earlier rule does. *)
Inductive classified (changed : bool) (s : ETWSession) : Severity -> Prop :=
| class_lost :
    lost_events s = true ->
    classified changed s LostEvents
| class_high :
    lost_events s = false -> high_utilization s = true ->
    classified changed s HighUtilization
| class_changed :
    lost_events s = false -> high_utilization s = false -> changed = true ->
    classified changed s ChangedSinceLastPoll
| class_normal :
    lost_events s = false -> high_utilization s = false -> changed = false ->
    classified changed s Normal.

(** Each row of the table has exactly one severity: that of its session,
    with "changed" the flag of the change detection, and its colour. *)
Definition rows_classified (m : model) (rows : list Row) : Prop :=
  Forall2
    (fun session row =>
       exists sev,
         row_style row = colour_of sev /\
         classified (hasChanges m session) session sev /\
         forall sev',
           classified (hasChanges m session) session sev' -> sev' = sev)
    (sessions m) rows.

(** The warning list reports the two tallies, when one of them is not
    zero. *)
Definition warnings_tallied (l : list ETWSession)
    (warnings : option Warnings) : Prop :=
  let high := tally high_utilization l in
  let lost := tally lost_events l in
  warnings =
    (if (high >? 0) || (lost >? 0)
     then Some {| highUtilSessions := high; lostEventSessions := lost |}
     else None).

(** A session with lost events and high utilization adds one to both
    tallies: each is one more than the tally of the other sessions. *)
Definition counted_in_both (l : list ETWSession)
    (warnings : option Warnings) : Prop :=
  forall before session behind,
    l = before ++ session :: behind ->
    lost_events session = true -> high_utilization session = true ->
    exists w,
      warnings = Some w /\
      highUtilSessions w = tally high_utilization (before ++ behind) + 1 /\
      lostEventSessions w = tally lost_events (before ++ behind) + 1.

End DashboardSpec.

(** ** Runs of the program on concrete inputs *)

Module Scenario.

(** The event loop after one more message, the pending command that
    produced it consumed. *)
Definition after (now : Time) (msg : Msg) (p : Program) : Program :=
  match msg with
  | tickMsg _ =>
      deliver now msg
        {| current := current p; timers := pred (timers p);
           queries := queries p; quitting := quitting p; polls := polls p |}
  | sessionsMsg l =>
      deliver now msg
        {| current := current p; timers := timers p;
           queries := pred (queries p); quitting := quitting p;
           polls := l :: polls p |}
  | errMsg _ =>
      deliver now msg
        {| current := current p; timers := timers p;
           queries := pred (queries p); quitting := quitting p;
           polls := polls p |}
  | _ => deliver now msg p
  end.

Definition session (name : string) (bufferSize buffers free written lost : Z)
  : ETWSession :=
  {| Name := name; BufferSize := bufferSize; MinimumBuffers := 4;
     MaximumBuffers := 64; NumberOfBuffers := buffers; FreeBuffers := free;
     BuffersWritten := written; EventsLost := lost; RealTimeBuffersLost := 0;
     LogFileMode := 0; LogFileName := EmptyString; Timestamp := 0 |}.

(** A session "A" that is polled once and then disappears, beside a
    session "B" that stays: continuous monitoring, three polls, a timer
    tick before each of the last two. *)
Definition vanished : Program :=
  after 5 (sessionsMsg [session "B" 64 8 8 0 0])
    (after 4 (tickMsg 4)
       (after 3 (sessionsMsg [session "B" 64 8 8 0 0])
          (after 2 (tickMsg 2)
             (after 1 (sessionsMsg [session "A" 64 10 5 0 0;
                                    session "B" 64 8 8 0 0])
                (start 0 1 false))))).

(** A record whose two counters multiply to [2^32], and one with more
    free buffers than buffers. *)
Definition huge : ETWSession := session "Huge" 65536 65536 0 0 0.
Definition overdrawn : ETWSession := session "Overdrawn" 64 1 2 0 0.

(** The end-to-end scenario of the design: two sessions, one at 10%
    utilization without loss, one at 90% with five events lost. *)
Definition quiet : ETWSession := session "Quiet" 64 20 18 7 0.
Definition lossy : ETWSession := session "Lossy" 64 10 1 9 5.

Definition end_to_end : Program :=
  after 1 (sessionsMsg [quiet; lossy]) (start 0 1 false).

(** Two traces in the subsystem, and a clock that advances by 7 between
    two readings. *)
Definition traces : list Subsystem.Trace :=
  [ Subsystem.mkTrace "Beta" "C:\beta.etl" 64 4 30 20 18 100 0 0 1;
    Subsystem.mkTrace "Alpha" "" 64 4 30 10 1 100 5 0 1 ].

Definition ticking : World :=
  Subsystem.world traces (fun n => Z.of_nat n * 7).

(** The snapshot of that query, and the state it leaves. *)
Definition ticking_snapshot : list ETWSession :=
  [ mkETWSession "Alpha" 64 4 30 10 1 100 5 0 1 "" 7;
    mkETWSession "Beta" 64 4 30 20 18 100 0 0 1 "C:\beta.etl" 0 ].

Definition ticking_final : QState :=
  {| receiver :=
       {| monitoring := false; monitor_sessions := ticking_snapshot |};
     clock_reads := 2 |}.

(** A subsystem with no session that answers the sizing call with
    [ERROR_SUCCESS] and a count of zero. *)
Definition idle : World :=
  {| sizing_call := (ERROR_SUCCESS, 0);
     data_call := fun buffer _ _ => (ERROR_SUCCESS, 0, buffer);
     clock := fun _ => 0 |}.

(** A subsystem that answers the sizing call with the more-data status and
    a count of zero. *)
Definition empty : World :=
  {| sizing_call := (ERROR_MORE_DATA, 0);
     data_call := fun buffer _ _ => (ERROR_SUCCESS, 0, buffer);
     clock := fun _ => 0 |}.

End Scenario.

(* ===================================================================== *)
(** * Part II. Properties                                                 *)
(* ===================================================================== *)

(** ** Rounding *)

Module Float64Facts.
Import Float64.
Local Open Scope Q_scope.

Lemma rne_cases (x : Q) :
  let f := Qfloor x in
  (x - inject_Z f < 1 # 2 /\ rne x = f) \/
  (1 # 2 < x - inject_Z f /\ rne x = (f + 1)%Z) \/
  (x - inject_Z f == 1 # 2 /\ rne x = (if Z.even f then f else f + 1)%Z).
Proof.
  intros f. unfold rne. fold f.
  destruct (Qcompare_spec (x - inject_Z f) (1 # 2)); auto.
Qed.

Lemma floor_bounds (x : Q) :
  inject_Z (Qfloor x) <= x /\ x < inject_Z (Qfloor x) + 1.
Proof.
  split; [apply Qfloor_le|].
  generalize (Qlt_floor x). rewrite inject_Z_plus. auto.
Qed.

Lemma rne_Z (n : Z) : rne (inject_Z n) = n.
Proof.
  destruct (rne_cases (inject_Z n)) as [[H ->]|[[H ->]|[H ->]]];
    rewrite Qfloor_Z in *; try reflexivity; lra.
Qed.

Lemma rne_le (x y : Q) : x <= y -> (rne x <= rne y)%Z.
Proof.
  intros Hxy.
  pose proof (Qfloor_resp_le _ _ Hxy) as Hf.
  pose proof (floor_bounds x) as [Hx1 Hx2].
  pose proof (floor_bounds y) as [Hy1 Hy2].
  destruct (Z.eq_dec (Qfloor x) (Qfloor y)) as [E|NE].
  - destruct (rne_cases x) as [[Hx ->]|[[Hx ->]|[Hx ->]]];
    destruct (rne_cases y) as [[Hy ->]|[[Hy ->]|[Hy ->]]];
    rewrite E in *; try lia; try lra;
    destruct (Z.even (Qfloor y)); try lia; lra.
  - destruct (rne_cases x) as [[Hx ->]|[[Hx ->]|[Hx ->]]];
    destruct (rne_cases y) as [[Hy ->]|[[Hy ->]|[Hy ->]]];
    repeat match goal with |- context [Z.even ?a] => destruct (Z.even a) end; lia.
Qed.

Lemma rne_error (x : Q) : Qabs (inject_Z (rne x) - x) <= 1 # 2.
Proof.
  pose proof (floor_bounds x) as [Hx1 Hx2].
  apply Qabs_Qle_condition.
  destruct (rne_cases x) as [[Hx ->]|[[Hx ->]|[Hx ->]]];
    repeat match goal with |- context [Z.even ?a] => destruct (Z.even a) end;
    rewrite ?inject_Z_plus; change (inject_Z 1) with 1; split; lra.
Qed.


Lemma pow2_pos (e : Z) : 0 < 2 ^ e.
Proof. apply Qpower_0_lt. reflexivity. Qed.

Lemma pow2_succ (e : Z) : 2 ^ (e + 1) == 2 * 2 ^ e.
Proof. rewrite Qpower_plus by discriminate. change (2 ^ 1) with 2. ring. Qed.

Lemma pow2_pred (e : Z) : 2 ^ (e - 1) == 2 ^ e * (1 # 2).
Proof.
  rewrite (Qpower_minus 2 e 1) by discriminate. change (2 ^ 1) with 2.
  field.
Qed.

Lemma pow2_lt_inv (n m : Z) : 2 ^ n < 2 ^ m -> (n < m)%Z.
Proof. intros H. apply (Qpower_lt_compat_l_inv 2); auto. reflexivity. Qed.

Lemma pow2_le (n m : Z) : (n <= m)%Z -> 2 ^ n <= 2 ^ m.
Proof. intros H. apply Qpower_le_compat_l; auto. discriminate. Qed.

(** The binary logarithm of a positive integer, read in [Q]. *)
Lemma log2_bounds (n : Z) :
  (0 < n)%Z ->
  2 ^ Z.log2 n <= inject_Z n /\ inject_Z n < 2 * 2 ^ Z.log2 n.
Proof.
  intros Hn. destruct (Z.log2_spec n Hn) as [H1 H2].
  pose proof (Z.log2_nonneg n) as H0.
  rewrite <- pow2_succ.
  change 2 with (inject_Z 2).
  rewrite <- !Zpower_Qpower by lia.
  rewrite <- Zle_Qle, <- Zlt_Qlt. unfold Z.succ in H2. lia.
Qed.

Lemma ilog2_spec (x : Q) :
  0 < x -> 2 ^ ilog2 x <= x /\ x < 2 ^ (ilog2 x + 1).
Proof.
  intros Hx. unfold ilog2.
  set (a := Z.log2 (Qnum x)). set (b := Z.log2 (Z.pos (Qden x))).
  assert (Hn : (0 < Qnum x)%Z).
  { destruct x as [n d]. unfold Qlt in Hx. simpl in *. lia. }
  destruct (log2_bounds _ Hn) as [A1 A2]. fold a in A1, A2.
  destruct (log2_bounds (Z.pos (Qden x)) eq_refl) as [B1 B2]. fold b in B1, B2.
  assert (Ex : x == inject_Z (Qnum x) / inject_Z (Z.pos (Qden x))).
  { destruct x as [n d]. apply Qmake_Qdiv. }
  pose proof (pow2_pos a) as Pa. pose proof (pow2_pos b) as Pb.
  set (N := inject_Z (Qnum x)) in *. set (D := inject_Z (Z.pos (Qden x))) in *.
  assert (HD : 0 < D) by lra.
  assert (Eab : 2 ^ (a - b) == 2 ^ a / 2 ^ b) by (apply Qpower_minus; discriminate).
  set (t := D / 2 ^ b).
  assert (Ht : 1 <= t /\ t < 2).
  { split; [apply Qle_shift_div_l | apply Qlt_shift_div_r]; lra. }
  assert (Hmul : forall p, 0 < p -> p * t * (1 # 2) <= p /\ p <= p * t).
  { intros p Hp. destruct Ht as [T1 T2].
    assert (p * t <= p * 2) by (apply Qmult_le_l; lra).
    assert (p * 1 <= p * t) by (apply Qmult_le_l; lra).
    split; lra. }
  destruct (Hmul _ Pa) as [M1 M2].
  assert (Lo : 2 ^ (a - b) * (1 # 2) <= x).
  { rewrite Ex. apply Qle_shift_div_l; [exact HD|].
    assert (E : 2 ^ (a - b) * (1 # 2) * D == 2 ^ a * t * (1 # 2))
      by (rewrite Eab; unfold t; field; lra).
    rewrite E. lra. }
  assert (Hi : x < 2 * 2 ^ (a - b)).
  { rewrite Ex. apply Qlt_shift_div_r; [exact HD|].
    assert (E : 2 * 2 ^ (a - b) * D == 2 * 2 ^ a * t)
      by (rewrite Eab; unfold t; field; lra).
    rewrite E. lra. }
  destruct (Qle_bool (2 ^ (a - b)) x) eqn:Hb.
  - apply Qle_bool_iff in Hb. rewrite pow2_succ. auto.
  - assert (Hlt : x < 2 ^ (a - b)).
    { apply Qnot_le_lt. intros H. apply Qle_bool_iff in H. congruence. }
    replace (a - b - 1 + 1)%Z with (a - b)%Z by lia.
    rewrite pow2_pred. auto.
Qed.

Lemma ilog2_unique (x : Q) (e : Z) :
  2 ^ e <= x -> x < 2 ^ (e + 1) -> ilog2 x = e.
Proof.
  intros H1 H2.
  assert (Hx : 0 < x) by (pose proof (pow2_pos e); lra).
  destruct (ilog2_spec x Hx) as [S1 S2].
  assert (e < ilog2 x + 1)%Z by (apply pow2_lt_inv; lra).
  assert (ilog2 x < e + 1)%Z by (apply pow2_lt_inv; lra).
  lia.
Qed.

Lemma ilog2_le (x y : Q) : 0 < x -> x <= y -> (ilog2 x <= ilog2 y)%Z.
Proof.
  intros Hx Hxy.
  destruct (ilog2_spec x Hx) as [S1 _].
  destruct (ilog2_spec y) as [_ S2]; [lra|].
  assert (ilog2 x < ilog2 y + 1)%Z by (apply pow2_lt_inv; lra).
  lia.
Qed.


Lemma rne_proper (x y : Q) : x == y -> rne x = rne y.
Proof.
  intros E. apply Z.le_antisymm; apply rne_le; rewrite E; apply Qle_refl.
Qed.

Lemma two52_pow : two52 == 2 ^ 52.
Proof. reflexivity. Qed.

Lemma binade_split (L : Z) : 2 ^ L == 2 ^ (L - 52) * two52.
Proof.
  rewrite two52_pow, <- Qpower_plus by discriminate.
  replace (L - 52 + 52)%Z with L by lia. reflexivity.
Qed.

(** The significand of a positive [x]: [x] scaled into [[2^52, 2^53)]. *)
Lemma scaled_bounds (x : Q) :
  0 < x ->
  two52 <= x / 2 ^ (ilog2 x - 52) /\ x / 2 ^ (ilog2 x - 52) < 2 * two52.
Proof.
  intros Hx. destruct (ilog2_spec x Hx) as [S1 S2].
  rewrite pow2_succ, binade_split in S2. rewrite binade_split in S1.
  pose proof (pow2_pos (ilog2 x - 52)) as Pu.
  split.
  - apply Qle_shift_div_l; [exact Pu|]. lra.
  - apply Qlt_shift_div_r; [exact Pu|]. lra.
Qed.

Lemma rne_scaled_bounds (x : Q) :
  0 < x ->
  two52 <= inject_Z (rne (x / 2 ^ (ilog2 x - 52))) /\
  inject_Z (rne (x / 2 ^ (ilog2 x - 52))) <= 2 * two52.
Proof.
  intros Hx. destruct (scaled_bounds x Hx) as [S1 S2].
  split.
  - change two52 with (inject_Z (2 ^ 52)) at 1. rewrite <- Zle_Qle.
    rewrite <- (rne_Z (2 ^ 52)). apply rne_le. exact S1.
  - change (2 * two52) with (inject_Z (2 * 2 ^ 52)). rewrite <- Zle_Qle.
    rewrite <- (rne_Z (2 * 2 ^ 52)). apply rne_le.
    change (inject_Z (2 * 2 ^ 52)) with (2 * two52). lra.
Qed.

Lemma round_pos_unfold (x : Q) :
  round_pos x = inject_Z (rne (x / 2 ^ (ilog2 x - 52))) * 2 ^ (ilog2 x - 52).
Proof. reflexivity. Qed.

Lemma round_pos_bounds (x : Q) :
  0 < x -> 2 ^ ilog2 x <= round_pos x /\ round_pos x <= 2 ^ (ilog2 x + 1).
Proof.
  intros Hx. destruct (rne_scaled_bounds x Hx) as [S1 S2].
  rewrite round_pos_unfold, pow2_succ, binade_split.
  pose proof (pow2_pos (ilog2 x - 52)) as Pu.
  set (u := 2 ^ (ilog2 x - 52)) in *.
  set (r := inject_Z (rne (x / u))) in *.
  assert (two52 * u <= r * u) by (apply Qmult_le_r; auto).
  assert (r * u <= 2 * two52 * u) by (apply Qmult_le_r; auto).
  split; lra.
Qed.

Lemma round_pos_le (x y : Q) :
  0 < x -> x <= y -> round_pos x <= round_pos y.
Proof.
  intros Hx Hxy.
  assert (Hy : 0 < y) by lra.
  pose proof (ilog2_le x y Hx Hxy) as HL.
  destruct (Z.eq_dec (ilog2 x) (ilog2 y)) as [E|NE].
  - rewrite !round_pos_unfold, E.
    pose proof (pow2_pos (ilog2 y - 52)) as Pu.
    apply Qmult_le_r; [exact Pu|].
    rewrite <- Zle_Qle. apply rne_le.
    apply Qmult_le_r; [apply Qinv_lt_0_compat; exact Pu|exact Hxy].
  - destruct (round_pos_bounds x Hx) as [_ B1].
    destruct (round_pos_bounds y Hy) as [B2 _].
    assert (2 ^ (ilog2 x + 1) <= 2 ^ ilog2 y) by (apply pow2_le; lia).
    lra.
Qed.

Lemma round_pos_error (x : Q) :
  0 < x -> Qabs (round_pos x - x) <= 2 ^ (ilog2 x - 52) * (1 # 2).
Proof.
  intros Hx. rewrite round_pos_unfold.
  pose proof (pow2_pos (ilog2 x - 52)) as Pu.
  set (u := 2 ^ (ilog2 x - 52)) in *.
  pose proof (rne_error (x / u)) as He.
  apply Qabs_Qle_condition in He. destruct He as [E1 E2].
  set (r := inject_Z (rne (x / u))) in *.
  assert (Ex : x == x / u * u) by (field; lra).
  assert (- (1 # 2) * u <= (r - x / u) * u) by (apply Qmult_le_r; auto).
  assert ((r - x / u) * u <= (1 # 2) * u) by (apply Qmult_le_r; auto).
  apply Qabs_Qle_condition.
  set (s := x / u) in *. split; lra.
Qed.

Lemma round_pos_exact (m k : Z) :
  (0 < m < 2 ^ 53)%Z ->
  round_pos (inject_Z m * 2 ^ k) == inject_Z m * 2 ^ k.
Proof.
  intros [Hm1 Hm2].
  destruct (log2_bounds m Hm1) as [A1 A2].
  pose proof (Z.log2_nonneg m) as Ha0.
  assert (Ha : (Z.log2 m < 53)%Z) by (apply Z.log2_lt_pow2; lia).
  set (a := Z.log2 m) in *.
  pose proof (pow2_pos k) as Pk.
  assert (EL : ilog2 (inject_Z m * 2 ^ k) = (a + k)%Z).
  { apply ilog2_unique.
    - rewrite Qpower_plus by discriminate. apply Qmult_le_r; auto.
    - rewrite pow2_succ, Qpower_plus by discriminate.
      assert (inject_Z m * 2 ^ k < 2 * 2 ^ a * 2 ^ k) by (apply Qmult_lt_r; auto).
      lra. }
  rewrite round_pos_unfold, EL.
  assert (Es : inject_Z m * 2 ^ k / 2 ^ (a + k - 52)
               == inject_Z (m * 2 ^ (52 - a))).
  { rewrite inject_Z_mult, Zpower_Qpower by lia.
    change (inject_Z 2) with 2.
    replace (a + k - 52)%Z with (k - (52 - a))%Z by lia.
    rewrite (Qpower_minus 2 k (52 - a)) by discriminate.
    pose proof (pow2_pos (52 - a)). field. split; lra. }
  rewrite (rne_proper _ _ Es), rne_Z.
  rewrite inject_Z_mult, Zpower_Qpower by lia.
  change (inject_Z 2) with 2.
  rewrite <- Qmult_assoc, <- Qpower_plus by discriminate.
  replace (52 - a + (a + k - 52))%Z with k by lia. reflexivity.
Qed.

(** *** [round] *)

Lemma Qnum_pos (x : Q) : 0 < x -> exists p, Qnum x = Z.pos p.
Proof.
  destruct x as [[|p|p] d]; unfold Qlt; simpl; intros H; try lia. eauto.
Qed.

Lemma round_of_pos (x : Q) : 0 < x -> round x == round_pos x.
Proof.
  intros Hx. destruct (Qnum_pos x Hx) as [p Hp].
  unfold round. rewrite Hp. apply Qred_correct.
Qed.

Lemma round_of_zero (x : Q) : x == 0 -> round x = 0.
Proof.
  destruct x as [[|p|p] d]; unfold Qeq; simpl; intros H; try lia.
  reflexivity.
Qed.

Lemma round_nonneg (x : Q) : 0 <= x -> 0 <= round x.
Proof.
  intros Hx. destruct (Qlt_le_dec 0 x) as [Hp|Hz].
  - rewrite (round_of_pos x Hp).
    destruct (round_pos_bounds x Hp) as [B _].
    pose proof (pow2_pos (ilog2 x)). lra.
  - rewrite (round_of_zero x) by lra. apply Qle_refl.
Qed.

(** Rounding is monotone (on the non-negative values the program has). *)
Lemma round_le (x y : Q) : 0 <= x -> x <= y -> round x <= round y.
Proof.
  intros Hx Hxy. destruct (Qlt_le_dec 0 x) as [Hp|Hz].
  - rewrite (round_of_pos x Hp), (round_of_pos y) by lra.
    apply round_pos_le; auto.
  - rewrite (round_of_zero x) by lra. apply round_nonneg. lra.
Qed.

Lemma round_proper (x y : Q) : 0 <= x -> x == y -> round x == round y.
Proof.
  intros Hx E. apply Qle_antisym; apply round_le; lra.
Qed.

(** A value with a significand of at most 53 bits is a fixed point. *)
Lemma round_exact (m k : Z) :
  (0 <= m < 2 ^ 53)%Z -> round (inject_Z m * 2 ^ k) == inject_Z m * 2 ^ k.
Proof.
  intros [H0 H1]. pose proof (pow2_pos k) as Pk.
  destruct (Z.eq_dec m 0%Z) as [->|NE].
  - rewrite round_of_zero; ring.
  - assert (0 < inject_Z m) by (change 0 with (inject_Z 0); rewrite <- Zlt_Qlt; lia).
    rewrite round_of_pos by (apply Qmult_lt_0_compat; auto).
    apply round_pos_exact. lia.
Qed.

Lemma Zle_Qle_iff (a b : Z) : (a <= b)%Z <-> inject_Z a <= inject_Z b.
Proof. rewrite Zle_Qle. reflexivity. Qed.

Lemma round_exact_Z (m : Z) :
  (0 <= m < 2 ^ 53)%Z -> round (inject_Z m) == inject_Z m.
Proof.
  intros H.
  assert (E : inject_Z m == inject_Z m * 2 ^ 0) by (change (2 ^ 0) with 1; ring).
  rewrite (round_proper _ _ (proj1 (Zle_Qle_iff 0 m) (proj1 H)) E).
  rewrite round_exact by exact H. symmetry. exact E.
Qed.

(** The relative error of one rounding is at most [2^-53]. *)
Lemma round_error (x : Q) :
  0 <= x -> Qabs (round x - x) <= x * unit_roundoff.
Proof.
  intros Hx. destruct (Qlt_le_dec 0 x) as [Hp|Hz].
  - rewrite (round_of_pos x Hp).
    eapply Qle_trans; [apply round_pos_error; exact Hp|].
    destruct (ilog2_spec x Hp) as [S1 _]. rewrite binade_split in S1.
    pose proof (pow2_pos (ilog2 x - 52)) as Pu.
    set (u := 2 ^ (ilog2 x - 52)) in *.
    assert (E : x * unit_roundoff == x * (1 # 4503599627370496) * (1 # 2))
      by (unfold unit_roundoff; field).
    rewrite E. apply Qmult_le_r; [reflexivity|].
    assert (E2 : u == (u * two52) * (1 # 4503599627370496))
      by (unfold two52; field).
    rewrite E2. apply Qmult_le_r; [reflexivity|]. exact S1.
  - rewrite (round_of_zero x) by lra.
    assert (E : x == 0) by lra. rewrite E. discriminate.
Qed.

(** The model computes what the processor computes, on quotients that
    round up, round down, are exact, are ties, and on the largest
    operands. *)
Example model_agrees_with_hardware :
  forallb Hardware.agree
    [ (1, 3); (2, 3); (1, 7); (5, 7); (9, 10); (1, 10); (18, 20); (2, 20);
      (1, 4294967295); (4294967294, 4294967295); (4294967295, 4294967295);
      (4294967295, 1); (4294967295, 3); (2147483649, 4294967295);
      (123456789, 987654321); (4, 5); (81, 100); (80, 100); (801, 1000);
      (0, 17); (1, 1); (7, 8); (3, 1024); (33, 64); (65535, 65536) ]%Z
  = true.
Proof. vm_compute. reflexivity. Qed.

End Float64Facts.

Module SessionFacts.
Import Float64 Float64Facts.
Local Open Scope Q_scope.

Lemma wrap_range (z : Z) : (0 <= U32.wrap z < 2 ^ 32)%Z.
Proof. unfold U32.wrap, U32.modulus. apply Z.mod_pos_bound. lia. Qed.

Lemma wrap_small (z : Z) : (0 <= z < 2 ^ 32)%Z -> U32.wrap z = z.
Proof. intros H. unfold U32.wrap, U32.modulus. apply Z.mod_small. lia. Qed.

Lemma inject_Z_nonneg (z : Z) : (0 <= z)%Z -> 0 <= inject_Z z.
Proof. intros H. change 0 with (inject_Z 0). rewrite <- Zle_Qle. exact H. Qed.

Lemma inject_Z_pos (z : Z) : (0 < z)%Z -> 0 < inject_Z z.
Proof. intros H. change 0 with (inject_Z 0). rewrite <- Zlt_Qlt. exact H. Qed.

(** The total memory is the wrapped product over 1024, exactly: a
    32-bit integer divided by a power of two is a binary64 value. *)
Lemma TotalMemoryMB_value (s : ETWSession) :
  TotalMemoryMB s ==
  inject_Z ((NumberOfBuffers s * BufferSize s) mod 2 ^ 32) / 1024.
Proof.
  unfold TotalMemoryMB, div, of_uint32, U32.mul.
  change ((NumberOfBuffers s * BufferSize s) mod 2 ^ 32)%Z
    with (U32.wrap (NumberOfBuffers s * BufferSize s)).
  pose proof (wrap_range (NumberOfBuffers s * BufferSize s)) as Hr.
  set (p := U32.wrap (NumberOfBuffers s * BufferSize s)) in *.
  assert (E : inject_Z p / 1024 == inject_Z p * 2 ^ (-10)) by reflexivity.
  assert (H0 : 0 <= inject_Z p / 1024).
  { rewrite E. apply Qmult_le_0_compat; [apply inject_Z_nonneg; lia|discriminate]. }
  rewrite (round_proper _ _ H0 E), round_exact by lia.
  symmetry. exact E.
Qed.

Lemma UtilizationPercent_zero (s : ETWSession) :
  NumberOfBuffers s = 0%Z -> UtilizationPercent s = 0.
Proof. intros H. unfold UtilizationPercent. rewrite H. reflexivity. Qed.

Lemma UtilizationPercent_unfold (s : ETWSession) :
  NumberOfBuffers s <> 0%Z ->
  UtilizationPercent s =
  round (round (inject_Z (U32.sub (NumberOfBuffers s) (FreeBuffers s))
                / inject_Z (NumberOfBuffers s)) * 100).
Proof.
  intros H. unfold UtilizationPercent.
  destruct (Z.eqb_spec (NumberOfBuffers s) 0); [contradiction|reflexivity].
Qed.

Lemma round_1 : round 1 == 1.
Proof. reflexivity. Qed.

Lemma round_100 : round 100 == 100.
Proof. reflexivity. Qed.

(** The quotient of the used buffers by the allocated ones. *)
Lemma quotient_range (d n : Z) :
  (0 <= d <= n)%Z -> (0 < n)%Z ->
  0 <= inject_Z d / inject_Z n /\ inject_Z d / inject_Z n <= 1.
Proof.
  intros Hd Hn. pose proof (inject_Z_pos n Hn) as Pn.
  split.
  - apply Qle_shift_div_l; [exact Pn|]. rewrite Qmult_0_l.
    apply inject_Z_nonneg. lia.
  - apply Qle_shift_div_r; [exact Pn|]. rewrite Qmult_1_l.
    rewrite <- Zle_Qle. lia.
Qed.

Lemma percent_range (d n : Z) :
  (0 <= d <= n)%Z -> (0 < n)%Z ->
  0 <= round (round (inject_Z d / inject_Z n) * 100) <= 100.
Proof.
  intros Hd Hn. destruct (quotient_range d n Hd Hn) as [Q0 Q1].
  pose proof (round_nonneg _ Q0) as R0.
  pose proof (round_le _ _ Q0 Q1) as R1. rewrite round_1 in R1.
  set (q := round (inject_Z d / inject_Z n)) in *.
  assert (H0 : 0 <= q * 100) by lra.
  assert (H1 : q * 100 <= 100) by lra.
  split.
  - apply round_nonneg. exact H0.
  - rewrite <- round_100 at 2. apply round_le; assumption.
Qed.

(** Two roundings: the relative error of the percentage. *)
Lemma percent_error (d n : Z) :
  (0 <= d)%Z -> (0 < n)%Z ->
  Qabs (round (round (inject_Z d / inject_Z n) * 100)
        - inject_Z d / inject_Z n * 100)
  <= inject_Z d / inject_Z n * 100 * (1 # 2251799813685248).
Proof.
  intros Hd Hn. pose proof (inject_Z_pos n Hn) as Pn.
  assert (Q0 : 0 <= inject_Z d / inject_Z n).
  { apply Qle_shift_div_l; [exact Pn|]. rewrite Qmult_0_l.
    apply inject_Z_nonneg. lia. }
  pose proof (round_nonneg _ Q0) as R0.
  pose proof (round_error _ Q0) as E1.
  set (x := inject_Z d / inject_Z n) in *.
  set (q := round x) in *.
  assert (H0 : 0 <= q * 100) by lra.
  pose proof (round_error _ H0) as E2.
  set (p := round (q * 100)) in *.
  apply Qabs_Qle_condition in E1. apply Qabs_Qle_condition in E2.
  unfold unit_roundoff in *.
  apply Qabs_Qle_condition. split; lra.
Qed.

End SessionFacts.

(** ** Ordering and sorting *)

Module OrderFacts.

(** Bytewise comparison of strings is a total order. *)

Lemma ascii_compare_N (a b : Ascii.ascii) :
  Ascii.compare a b = N.compare (Ascii.N_of_ascii a) (Ascii.N_of_ascii b).
Proof. reflexivity. Qed.

Lemma ascii_compare_Lt_trans (a b c : Ascii.ascii) :
  Ascii.compare a b = Lt -> Ascii.compare b c = Lt -> Ascii.compare a c = Lt.
Proof.
  rewrite !ascii_compare_N, !N.compare_lt_iff. lia.
Qed.

Lemma ascii_compare_Eq (a b : Ascii.ascii) : Ascii.compare a b = Eq -> a = b.
Proof. apply Ascii.compare_eq_iff. Qed.

Lemma string_compare_Lt_trans (a b c : string) :
  String.compare a b = Lt -> String.compare b c = Lt -> String.compare a c = Lt.
Proof.
  revert b c. induction a as [|x a IH]; intros [|y b] [|z c]; simpl;
    try discriminate; auto.
  destruct (Ascii.compare x y) eqn:Exy; try discriminate;
  destruct (Ascii.compare y z) eqn:Eyz; try discriminate; intros H1 H2.
  - apply ascii_compare_Eq in Exy, Eyz. subst.
    assert (E : Ascii.compare z z = Eq) by (rewrite ascii_compare_N; apply N.compare_refl).
    rewrite E. eauto.
  - apply ascii_compare_Eq in Exy. subst. rewrite Eyz. reflexivity.
  - apply ascii_compare_Eq in Eyz. subst. rewrite Exy. reflexivity.
  - rewrite (ascii_compare_Lt_trans _ _ _ Exy Eyz). reflexivity.
Qed.

Lemma string_compare_refl (a : string) : String.compare a a = Eq.
Proof.
  induction a as [|x a IH]; simpl; auto.
  assert (E : Ascii.compare x x = Eq) by (rewrite ascii_compare_N; apply N.compare_refl).
  rewrite E. exact IH.
Qed.

(** [a <= b] is [not (b < a)]. *)
Lemma leb_ltb (a b : string) : String.leb a b = negb (String.ltb b a).
Proof.
  unfold String.leb, String.ltb. rewrite (String.compare_antisym b a).
  destruct (String.compare a b); reflexivity.
Qed.

Lemma ltb_asym (a b : string) : String.ltb a b = true -> String.ltb b a = false.
Proof.
  unfold String.ltb. rewrite (String.compare_antisym b a).
  destruct (String.compare a b); simpl; congruence.
Qed.

Lemma leb_trans (a b c : string) :
  String.leb a b = true -> String.leb b c = true -> String.leb a c = true.
Proof.
  unfold String.leb.
  destruct (String.compare a b) eqn:Eab; try discriminate;
  destruct (String.compare b c) eqn:Ebc; try discriminate; intros _ _.
  - apply String.compare_eq_iff in Eab, Ebc. subst. rewrite string_compare_refl. reflexivity.
  - apply String.compare_eq_iff in Eab. subst. rewrite Ebc. reflexivity.
  - apply String.compare_eq_iff in Ebc. subst. rewrite Eab. reflexivity.
  - rewrite (string_compare_Lt_trans _ _ _ Eab Ebc). reflexivity.
Qed.

End OrderFacts.

Module SortFacts.
Import OrderFacts.

Section Insertion.
Context {A : Type} (less : A -> A -> bool).

Hypothesis less_asym : forall x y, less x y = true -> less y x = false.

Lemma sort_insert_perm (x : A) (l : list A) :
  Permutation (sort_insert less x l) (x :: l).
Proof.
  induction l as [|y l IH]; simpl; [reflexivity|].
  destruct (less x y); [reflexivity|].
  rewrite IH. apply perm_swap.
Qed.

Lemma sort_insert_hd (x a : A) (l : list A) :
  ordered less a x -> HdRel (ordered less) a l ->
  HdRel (ordered less) a (sort_insert less x l).
Proof.
  intros Hax Hl. destruct l as [|y l]; simpl.
  - constructor. exact Hax.
  - destruct (less x y); constructor; auto.
    inversion Hl; auto.
Qed.

Lemma sort_insert_sorted (x : A) (l : list A) :
  Sorted (ordered less) l -> Sorted (ordered less) (sort_insert less x l).
Proof.
  induction 1 as [|y l Hs IH Hhd]; simpl.
  - repeat constructor.
  - destruct (less x y) eqn:E.
    + constructor; [constructor; assumption|].
      constructor. apply less_asym. exact E.
    + constructor; [exact IH|].
      apply sort_insert_hd; auto.
Qed.

Lemma sort_Slice_acc (acc l : list A) :
  Sorted (ordered less) acc ->
  let r := foldl (fun sorted x => sort_insert less x sorted) acc l in
  Sorted (ordered less) r /\ Permutation r (acc ++ l).
Proof.
  revert acc. induction l as [|x l IH]; intros acc Hacc; simpl.
  - rewrite app_nil_r. auto.
  - destruct (IH (sort_insert less x acc) (sort_insert_sorted x acc Hacc)) as [S P].
    split; [exact S|].
    rewrite P, sort_insert_perm. simpl. apply Permutation_middle.
Qed.

Lemma sort_Slice_sorted (l : list A) : Sorted (ordered less) (sort_Slice less l).
Proof. apply (sort_Slice_acc [] l). constructor. Qed.

Lemma sort_Slice_perm (l : list A) : Permutation (sort_Slice less l) l.
Proof. apply (sort_Slice_acc [] l). constructor. Qed.

End Insertion.

(** The sessions are compared by name. *)

Lemma ordered_less (a b : ETWSession) : ordered less a b <-> name_le a b.
Proof.
  unfold ordered, less, name_le. rewrite leb_ltb.
  destruct (String.ltb (Name b) (Name a)); simpl; split; congruence.
Qed.

Lemma name_le_trans : Transitive name_le.
Proof. intros a b c. apply leb_trans. Qed.

Lemma sort_sessions_sorted (l : list ETWSession) :
  StronglySorted name_le (sort_Slice less l).
Proof.
  apply Sorted_StronglySorted; [exact name_le_trans|].
  assert (H : Sorted (ordered less) (sort_Slice less l)).
  { apply sort_Slice_sorted. intros x y. apply ltb_asym. }
  induction H as [|a r Hs IH Hhd]; constructor; auto.
  destruct Hhd; constructor. apply ordered_less. assumption.
Qed.

(** In a strongly sorted list an earlier element is below a later one. *)
Lemma StronglySorted_lookup {A} (R : A -> A -> Prop) (l : list A) :
  StronglySorted R l ->
  forall (i j : nat) (a b : A),
    (i < j)%nat -> l !! i = Some a -> l !! j = Some b -> R a b.
Proof.
  induction 1 as [|x l Hs IH Hall]; intros i j a b Hij Ha Hb.
  - rewrite lookup_nil in Ha. discriminate.
  - destruct j as [|j]; [lia|]. simpl in Hb.
    destruct i as [|i]; simpl in Ha.
    + inversion Ha; subst.
      rewrite List.Forall_forall in Hall. apply Hall.
      apply list_elem_of_In. eapply list_elem_of_lookup_2. exact Hb.
    + apply (IH i j); auto. lia.
Qed.

End SortFacts.

Module QueryFacts.
Import SortFacts.

(** *** Inversion of the monad *)

Lemma bind_Ok {A B} (c : M A) (f : A -> M B) (st st' : QState) (b : B) :
  (c ≫= f) st = (Ok b, st') ->
  exists a st1, c st = (Ok a, st1) /\ f a st1 = (Ok b, st').
Proof.
  unfold mbind, M_bind. destruct (c st) as [[a|e|why] st1]; intros H;
    try discriminate. eauto.
Qed.

Lemma ret_Ok {A} (a b : A) (st st' : QState) :
  mret (M := M) a st = (Ok b, st') -> a = b /\ st = st'.
Proof. unfold mret, M_ret. intros H. inversion H. auto. Qed.

Lemma access_Ok {A} (why : string) (o : option A) (st st' : QState) (a : A) :
  access why o st = (Ok a, st') -> o = Some a /\ st' = st.
Proof.
  destruct o as [x|]; simpl; unfold mret, M_ret, crash; intros H;
    inversion H; auto.
Qed.

Ltac invert_bind H :=
  let a := fresh "v" in let st1 := fresh "st" in
  let H1 := fresh "Hc" in
  apply bind_Ok in H; destruct H as (a & st1 & H1 & H).

(** One iteration reads the clock once, last, and keeps the receiver. *)
Lemma decode_session_Ok (w : World) (buffer sessionArray : list Z) (i : Z)
    (st st' : QState) (s : ETWSession) :
  decode_session w buffer sessionArray i st = (Ok s, st') ->
  Timestamp s = clock w (clock_reads st) /\
  clock_reads st' = S (clock_reads st) /\
  receiver st' = receiver st.
Proof.
  unfold decode_session. intros H.
  repeat (invert_bind H;
          match goal with
          | Hc : access _ _ _ = _ |- _ => apply access_Ok in Hc; destruct Hc as [? ->]
          | Hc : (if _ then _ else _) _ = _ |- _ =>
              destruct (_ >? 0);
              [apply access_Ok in Hc; destruct Hc as [? ->]
              |apply ret_Ok in Hc; destruct Hc as [? <-]]
          | Hc : time_Now _ _ = _ |- _ => unfold time_Now in Hc; inversion Hc; subst; clear Hc
          end).
  all: apply ret_Ok in H; destruct H as [<- <-]; simpl; auto.
Qed.

Lemma decode_loop_Ok (w : World) (buffer sessionArray : list Z)
    (indices : list Z) :
  forall (acc : list ETWSession) (st st' : QState) (l : list ETWSession),
    decode_loop w buffer sessionArray indices acc st = (Ok l, st') ->
    exists new,
      l = acc ++ new /\
      map Timestamp new =
        map (clock w) (seq (clock_reads st) (length indices)) /\
      clock_reads st' = (clock_reads st + length indices)%nat /\
      receiver st' = receiver st.
Proof.
  induction indices as [|i indices IH]; intros acc st st' l H; simpl in H.
  - apply ret_Ok in H. destruct H as [<- <-]. exists [].
    rewrite app_nil_r. simpl. auto with arith.
  - invert_bind H.
    apply decode_session_Ok in Hc. destruct Hc as (Ht & Hr & Hm).
    apply IH in H. destruct H as (new & -> & Hts & Hr' & Hm').
    exists (v :: new). rewrite <- app_assoc. simpl.
    rewrite Ht, Hts, Hr. repeat split; try congruence. lia.
Qed.

(** Decoding faults, it does not fail. *)

Lemma never_fails_ret {A} (a : A) : never_fails (mret (M := M) a).
Proof. intros st e st' H. discriminate. Qed.

Lemma never_fails_access {A} (why : string) (o : option A) :
  never_fails (access why o).
Proof. intros st e st' H. destruct o; discriminate. Qed.

Lemma never_fails_time_Now (w : World) : never_fails (time_Now w).
Proof. intros st e st' H. discriminate. Qed.

Lemma never_fails_bind {A B} (c : M A) (f : A -> M B) :
  never_fails c -> (forall a, never_fails (f a)) -> never_fails (c ≫= f).
Proof.
  intros Hc Hf st e st' H. unfold mbind, M_bind in H.
  destruct (c st) as [[a|e1|why] st1] eqn:E.
  - exact (Hf a st1 e st' H).
  - exact (Hc st e1 st1 E).
  - discriminate.
Qed.

Lemma never_fails_decode_session (w : World) (buffer sessionArray : list Z)
    (i : Z) :
  never_fails (decode_session w buffer sessionArray i).
Proof.
  unfold decode_session.
  repeat first
    [ apply never_fails_ret
    | apply never_fails_access
    | apply never_fails_time_Now
    | apply never_fails_bind; [|intros ?]
    | match goal with |- never_fails (if ?b then _ else _) => destruct b end ].
Qed.

Lemma never_fails_decode_loop (w : World) (buffer sessionArray : list Z)
    (indices : list Z) :
  forall acc, never_fails (decode_loop w buffer sessionArray indices acc).
Proof.
  induction indices as [|i indices IH]; intros acc; simpl.
  - apply never_fails_ret.
  - apply never_fails_bind; [apply never_fails_decode_session|].
    intros session. apply IH.
Qed.

(** The shape of a successful query. *)
Lemma QueryAllSessions_Ok (w : World) (st st' : QState) (l : list ETWSession) :
  QueryAllSessions w st = (Ok l, st') ->
  (l = [] /\ st' = st) \/
  exists decoded,
    l = sort_Slice less decoded /\
    map Timestamp decoded =
      map (clock w) (seq (clock_reads st) (length decoded)) /\
    clock_reads st' = (clock_reads st + length decoded)%nat.
Proof.
  unfold QueryAllSessions.
  destruct (sizing_call w) as [ret sessionCount].
  destruct (negb (ret =? ERROR_MORE_DATA)); [discriminate|].
  destruct (sessionCount =? 0).
  - intros H. apply ret_Ok in H. destruct H as [<- <-]. auto.
  - intros H. invert_bind H. apply access_Ok in Hc. destruct Hc as [_ ->].
    destruct v as [buffer sessionArray].
    destruct (data_call w buffer sessionArray sessionCount) as [[ret' count'] buffer'].
    destruct (ret' =? ERROR_SUCCESS); [|discriminate].
    invert_bind H. apply decode_loop_Ok in Hc.
    destruct Hc as (new & -> & Hts & Hr & Hm).
    invert_bind H. unfold set_sessions in Hc. inversion Hc; subst; clear Hc.
    apply ret_Ok in H. destruct H as [<- <-]. simpl in *.
    right. exists new. split; [reflexivity|].
    assert (Hlen : length new = length (seqZ 0 count')).
    { apply (f_equal length) in Hts. rewrite !length_map, length_seq in Hts. exact Hts. }
    rewrite Hlen. auto.
Qed.

End QueryFacts.


Module ModelFacts.
Import StoreSpec.

Lemma record_of_Some (k : string) (snapshot : list ETWSession) (r : ETWSession) :
  record_of k snapshot = Some r -> r ∈ snapshot /\ Name r = k.
Proof.
  induction snapshot as [|s snapshot IH]; simpl; [discriminate|].
  destruct (record_of k snapshot) as [r'|].
  - intros H. inversion H; subst. destruct (IH eq_refl). split; [by right|done].
  - destruct (decide (Name s = k)); [|discriminate].
    intros H. inversion H; subst. split; [by left|done].
Qed.

Lemma record_of_None (k : string) (snapshot : list ETWSession) :
  record_of k snapshot = None <-> forall r, r ∈ snapshot -> Name r ≠ k.
Proof.
  induction snapshot as [|s snapshot IH]; simpl.
  - split; [|done]. intros _ r Hr. by apply not_elem_of_nil in Hr.
  - destruct (record_of k snapshot) as [r'|] eqn:E.
    + split; [discriminate|]. intros H.
      destruct (record_of_Some _ _ _ E) as [Hin Hn].
      exfalso. apply (H r'); [by right|done].
    + destruct (decide (Name s = k)) as [Hs|Hs].
      * split; [discriminate|]. intros H. exfalso. apply (H s); [by left|done].
      * split; [|done]. intros _ r Hr.
        apply elem_of_cons in Hr. destruct Hr as [->|Hr]; [done|].
        by apply IH.
Qed.

Lemma store_previous_lookup (snapshot : list ETWSession) :
  forall (previous : gmap string ETWSession) (k : string),
    store_previous previous snapshot !! k =
    match record_of k snapshot with
    | Some r => Some r
    | None => previous !! k
    end.
Proof.
  induction snapshot as [|s snapshot IH]; intros previous k; simpl.
  - reflexivity.
  - unfold store_previous in *. simpl. rewrite IH.
    destruct (record_of k snapshot); [reflexivity|].
    rewrite lookup_insert. destruct (decide (Name s = k)); reflexivity.
Qed.

Lemma retained_Some (older : list (list ETWSession)) (k : string) (r : ETWSession) :
  retained older k = Some r ->
  Name r = k /\ exists snapshot, snapshot ∈ older /\ r ∈ snapshot.
Proof.
  induction older as [|snapshot older IH]; simpl; [discriminate|].
  destruct (record_of k snapshot) as [r'|] eqn:E.
  - intros H. inversion H; subst.
    destruct (record_of_Some _ _ _ E). split; [done|].
    exists snapshot. split; [by left|done].
  - intros H. destruct (IH H) as [Hn (sn & Hin & Hr)]. split; [done|].
    exists sn. split; [by right|done].
Qed.

(** *** Invariants of the event loop *)

(** The store holds, for each name, the record of the most recent
    superseded snapshot that has it; the model shows the latest snapshot. *)
Definition store_inv (p : Program) : Prop :=
  sessions (current p) = default [] (head (polls p)) /\
  forall k, previousSessions (current p) !! k = retained (tail (polls p)) k.

(** A single-shot program polls once: until its one query is answered the
    model has no session, and nothing is ever stored. *)
Definition once_inv (p : Program) : Prop :=
  showOnce (current p) = true ->
  previousSessions (current p) = ∅ /\
  (queries p = 0%nat \/ (queries p = 1%nat /\ sessions (current p) = [])).

Lemma start_inv (now : Time) (intervalSeconds : Z) (once : bool) :
  store_inv (start now intervalSeconds once) /\
  once_inv (start now intervalSeconds once).
Proof.
  split.
  - split; [reflexivity|]. intros k. simpl. apply lookup_empty.
  - intros _. simpl. split; [reflexivity|]. right. auto.
Qed.

Lemma step_store_inv (p p' : Program) :
  step p p' -> store_inv p -> store_inv p'.
Proof.
  intros Hstep [Hs Hp].
  destruct Hstep as [p now key|p now|p now t n Ht|p now l n Hq|p now e n Hq];
    unfold deliver, Update; simpl.
  - destruct (String.eqb key "q" || String.eqb key "ctrl+c"); simpl; split; assumption.
  - split; assumption.
  - destruct (showOnce (current p)); simpl; split; assumption.
  - assert (Hnew : store_inv
      {| current :=
           {| monitor := monitor (current p); sessions := l;
              previousSessions :=
                store_previous (previousSessions (current p)) (sessions (current p));
              lastUpdate := now; intervalSeconds := intervalSeconds (current p);
              showOnce := showOnce (current p); err := err (current p);
              exiting := exiting (current p) |};
         timers := timers p; queries := n; quitting := quitting p;
         polls := l :: polls p |}).
    { split; [reflexivity|]. intros k. simpl.
      rewrite store_previous_lookup, Hs, Hp.
      destruct (polls p) as [|snapshot older]; simpl; reflexivity. }
    destruct (showOnce (current p)); simpl; exact Hnew.
  - split; assumption.
Qed.

Lemma step_once_inv (p p' : Program) :
  step p p' -> once_inv p -> once_inv p'.
Proof.
  intros Hstep Hinv.
  destruct Hstep as [p now key|p now|p now t n Ht|p now l n Hq|p now e n Hq];
    unfold deliver, Update, once_inv in *; simpl in *.
  - destruct (String.eqb key "q" || String.eqb key "ctrl+c"); simpl; assumption.
  - assumption.
  - destruct (showOnce (current p)) eqn:E; simpl; [|rewrite E; discriminate].
    rewrite E. assumption.
  - destruct (showOnce (current p)) eqn:E; simpl; [|discriminate].
    intros _. destruct (Hinv eq_refl) as [Hprev [H0|[H1 Hnil]]]; [lia|].
    rewrite Hprev, Hnil. split; [reflexivity|]. left. lia.
  - intros Ho. destruct (Hinv Ho) as [Hprev [H0|[H1 Hnil]]]; [lia|].
    split; [assumption|]. left. lia.
Qed.

Lemma reachable_inv (p : Program) :
  reachable p -> store_inv p /\ once_inv p.
Proof.
  induction 1 as [now i once|p p' Hr [IH1 IH2] Hstep].
  - apply start_inv.
  - split; [eapply step_store_inv|eapply step_once_inv]; eassumption.
Qed.

(** In a single-shot program no session is flagged as changed. *)
Lemma hasChanges_once (p : Program) (session : ETWSession) :
  reachable p -> showOnce (current p) = true ->
  hasChanges (current p) session = false.
Proof.
  intros Hr Ho. destruct (reachable_inv p Hr) as [_ Hinv].
  destruct (Hinv Ho) as [Hprev _].
  unfold hasChanges. rewrite Hprev, lookup_empty. reflexivity.
Qed.

End ModelFacts.

(** ** Raw memory and the allocation phase *)

Module MemFacts.
Import Mem.

Lemma poke8_Some (mem : list Z) (a v : Z) :
  0 <= a < Z.of_nat (length mem) ->
  poke8 mem a v = Some (<[Z.to_nat a := v mod 256]> mem).
Proof.
  intros H. unfold poke8.
  destruct (Z.leb_spec 0 a); [|lia].
  destruct (Z.ltb_spec a (Z.of_nat (length mem))); [|lia]. reflexivity.
Qed.

Lemma poke8_inv (mem mem' : list Z) (a v : Z) :
  poke8 mem a v = Some mem' ->
  0 <= a < Z.of_nat (length mem) /\
  mem' = <[Z.to_nat a := v mod 256]> mem.
Proof.
  unfold poke8.
  destruct (Z.leb_spec 0 a); [|discriminate].
  destruct (Z.ltb_spec a (Z.of_nat (length mem))); [|discriminate].
  simpl. intros E. inversion E. split; [lia|reflexivity].
Qed.

Lemma peek8_insert_eq (mem : list Z) (a v : Z) :
  0 <= a < Z.of_nat (length mem) ->
  peek8 (<[Z.to_nat a := v]> mem) a = Some v.
Proof.
  intros H. unfold peek8. destruct (Z.ltb_spec a 0); [lia|].
  apply list_lookup_insert_eq. lia.
Qed.

Lemma peek8_insert_ne (mem : list Z) (a b v : Z) :
  0 <= a -> a <> b ->
  peek8 (<[Z.to_nat a := v]> mem) b = peek8 mem b.
Proof.
  intros Ha Hne. unfold peek8. destruct (Z.ltb_spec b 0); [reflexivity|].
  apply list_lookup_insert_ne. lia.
Qed.

(** What a 32-bit store leaves in memory. *)
Lemma poke32_spec (mem : list Z) (a v : Z) :
  0 <= a -> a + 4 <= Z.of_nat (length mem) ->
  exists mem',
    poke32 mem a v = Some mem' /\
    length mem' = length mem /\
    peek8 mem' a = Some (v mod 256) /\
    peek8 mem' (a + 1) = Some (v / 256 mod 256) /\
    peek8 mem' (a + 2) = Some (v / 65536 mod 256) /\
    peek8 mem' (a + 3) = Some (v / 16777216 mod 256) /\
    forall b, b < a \/ a + 4 <= b -> peek8 mem' b = peek8 mem b.
Proof.
  intros Ha Hlen. unfold poke32.
  rewrite poke8_Some by lia. simpl.
  rewrite poke8_Some by (rewrite length_insert; lia). simpl.
  rewrite poke8_Some by (rewrite !length_insert; lia). simpl.
  rewrite poke8_Some by (rewrite !length_insert; lia).
  eexists. split; [reflexivity|].
  split; [by rewrite !length_insert|].
  repeat split.
  - rewrite !peek8_insert_ne by lia. apply peek8_insert_eq. lia.
  - rewrite !peek8_insert_ne by lia. apply peek8_insert_eq.
    rewrite length_insert. lia.
  - rewrite !peek8_insert_ne by lia. apply peek8_insert_eq.
    rewrite !length_insert. lia.
  - apply peek8_insert_eq. rewrite !length_insert. lia.
  - intros b Hb. rewrite !peek8_insert_ne by lia. reflexivity.
Qed.

Lemma peek32_bytes (mem : list Z) (a b0 b1 b2 b3 : Z) :
  peek8 mem a = Some b0 -> peek8 mem (a + 1) = Some b1 ->
  peek8 mem (a + 2) = Some b2 -> peek8 mem (a + 3) = Some b3 ->
  peek32 mem a = Some (b0 + 256 * b1 + 65536 * (b2 + 256 * b3)).
Proof.
  intros H0 H1 H2 H3. unfold peek32, peek16.
  rewrite H0, H1. simpl.
  replace (a + 2 + 1) with (a + 3) by lia. rewrite H2, H3. reflexivity.
Qed.

Lemma peek32_frame (mem mem' : list Z) (b : Z) :
  (forall c, b <= c < b + 4 -> peek8 mem' c = peek8 mem c) ->
  peek32 mem' b = peek32 mem b.
Proof.
  intros H. unfold peek32, peek16.
  rewrite (H b), (H (b + 1)), (H (b + 2)), (H (b + 2 + 1)) by lia.
  reflexivity.
Qed.

(** A 32-bit load after a 32-bit store. *)
Lemma poke32_peek32 (mem : list Z) (a v : Z) :
  0 <= a -> a + 4 <= Z.of_nat (length mem) -> 0 <= v < 2 ^ 32 ->
  exists mem',
    poke32 mem a v = Some mem' /\
    length mem' = length mem /\
    peek32 mem' a = Some v /\
    forall b, b + 4 <= a \/ a + 4 <= b -> peek32 mem' b = peek32 mem b.
Proof.
  intros Ha Hlen Hv.
  destruct (poke32_spec mem a v Ha Hlen)
    as (mem' & Hp & Hl & B0 & B1 & B2 & B3 & Hframe).
  exists mem'. split; [exact Hp|]. split; [exact Hl|]. split.
  - rewrite (peek32_bytes _ _ _ _ _ _ B0 B1 B2 B3). f_equal.
    change (2 ^ 32) with 4294967296 in Hv. clear -Hv.
    Z.div_mod_to_equations. lia.
  - intros b Hb. apply peek32_frame. intros c Hc. apply Hframe. lia.
Qed.

End MemFacts.

Module AllocateFacts.
Import Mem MemFacts AllocationSpec.

Lemma propertySize_value : propertySize = 2168.
Proof. reflexivity. Qed.

Lemma init_slot_spec (buffer sessionArray : list Z) (i : Z) :
  0 <= i ->
  i * propertySize + propertySize <= Z.of_nat (length buffer) ->
  Z.of_nat (length buffer) <= 2 ^ 32 ->
  (Z.to_nat i < length sessionArray)%nat ->
  exists buffer',
    init_slot (buffer, sessionArray) i
      = Some (buffer', <[Z.to_nat i := i * propertySize]> sessionArray) /\
    length buffer' = length buffer /\
    slot_initialised buffer' (i * propertySize) /\
    forall j, 0 <= j -> j <> i ->
      slot_initialised buffer (j * propertySize) ->
      slot_initialised buffer' (j * propertySize).
Proof.
  intros Hi Hfit Hmax Harr. unfold init_slot.
  rewrite propertySize_value in *.
  change (2 ^ 32) with 4294967296 in Hmax.
  assert (Hindex : U32.mul i (U32.wrap 2168) = i * 2168).
  { unfold U32.mul, U32.wrap, U32.modulus.
    change (2168 mod 2 ^ 32) with 2168. apply Z.mod_small.
    change (2 ^ 32) with 4294967296. lia. }
  rewrite Hindex.
  assert (Hpeek : exists v, peek8 buffer (i * 2168) = Some v).
  { unfold peek8. destruct (Z.ltb_spec (i * 2168) 0); [lia|].
    apply lookup_lt_is_Some. lia. }
  destruct Hpeek as [v0 ->]. simpl.
  change Wnode_BufferSize_offset with 0.
  change (field_offset "LoggerNameOffset") with 116.
  change (field_offset "LogFileNameOffset") with 112.
  change (U32.wrap 2168) with 2168.
  change (U32.wrap sizeof_EVENT_TRACE_PROPERTIES) with 120.
  change sizeof_EVENT_TRACE_PROPERTIES with 120.
  change MAX_SESSION_NAME_LEN with 1024.
  destruct (poke32_peek32 buffer (i * 2168 + 0) 2168)
    as (b1 & -> & L1 & R1 & F1); [lia|lia|lia|]. simpl.
  destruct (poke32_peek32 b1 (i * 2168 + 116) 120)
    as (b2 & -> & L2 & R2 & F2); [lia|lia|lia|]. simpl.
  rewrite R2. simpl. change (U32.add 120 1024) with 1144.
  destruct (poke32_peek32 b2 (i * 2168 + 112) 1144)
    as (b3 & -> & L3 & R3 & F3); [lia|lia|lia|]. simpl.
  destruct (decide (Z.to_nat i < length sessionArray)%nat); [|contradiction].
  exists b3. split; [reflexivity|]. split; [congruence|]. split.
  - unfold slot_initialised.
    change Wnode_BufferSize_offset with 0.
    change (field_offset "LoggerNameOffset") with 116.
    change (field_offset "LogFileNameOffset") with 112.
    change sizeof_EVENT_TRACE_PROPERTIES with 120.
    change MAX_SESSION_NAME_LEN with 1024.
    rewrite R3. rewrite !F3, !F2, R1, R2 by lia. auto.
  - intros j Hj Hne. unfold slot_initialised.
    change Wnode_BufferSize_offset with 0.
    change (field_offset "LoggerNameOffset") with 116.
    change (field_offset "LogFileNameOffset") with 112.
    rewrite !F3, !F2, !F1 by lia. auto.
Qed.

(** The allocation loop, after its first [k] iterations. *)
Lemma allocate_loop (n : Z) (k : nat) :
  Z.of_nat k <= n -> n * propertySize <= 2 ^ 32 ->
  exists buffer sessionArray,
    foldl (fun acc i => acc ← acc; init_slot acc i)
      (Some (replicate (Z.to_nat (n * propertySize)) 0,
             replicate (Z.to_nat n) 0))
      (seqZ 0 (Z.of_nat k))
      = Some (buffer, sessionArray) /\
    Z.of_nat (length buffer) = n * propertySize /\
    Z.of_nat (length sessionArray) = n /\
    forall i, 0 <= i < Z.of_nat k ->
      sessionArray !! Z.to_nat i = Some (i * propertySize) /\
      slot_initialised buffer (i * propertySize).
Proof.
  intros Hk Hmax. induction k as [|k IH].
  - simpl. eexists _, _. split; [reflexivity|].
    rewrite !length_replicate. rewrite propertySize_value in *.
    repeat split; try lia.
  - destruct IH as (buffer & arr & Hfold & Hlb & Hla & Hslots); [lia|].
    rewrite Nat2Z.inj_succ. unfold Z.succ.
    rewrite seqZ_app by lia. rewrite foldl_app, Hfold.
    replace (seqZ (0 + Z.of_nat k) 1) with [Z.of_nat k]
      by (unfold seqZ; simpl; f_equal; lia).
    cbn [foldl mbind option_bind].
    destruct (init_slot_spec buffer arr (Z.of_nat k))
      as (buffer' & -> & Hlb' & Hinit & Hframe).
    + lia.
    + rewrite Hlb. rewrite propertySize_value in *. lia.
    + rewrite Hlb. exact Hmax.
    + lia.
    + exists buffer', (<[Z.to_nat (Z.of_nat k) := Z.of_nat k * propertySize]> arr).
      split; [reflexivity|]. split; [lia|].
      split; [rewrite length_insert; exact Hla|].
      intros i Hi. destruct (Z.eq_dec i (Z.of_nat k)) as [->|Hne].
      * split; [|exact Hinit].
        apply list_lookup_insert_eq. lia.
      * destruct (Hslots i) as [Ha Hs]; [lia|]. split.
        -- rewrite list_lookup_insert_ne by lia. exact Ha.
        -- apply Hframe; [lia|exact Hne|exact Hs].
Qed.

End AllocateFacts.

(* ===================================================================== *)
(** * Part III. The claims of the design document                         *)
(* ===================================================================== *)

Import Float64 Float64Facts SessionFacts SortFacts QueryFacts.
Import AllocationSpec StoreSpec DashboardSpec ModelFacts AllocateFacts.

(** ** Derived quantities *)

(** C10.  The total memory multiplies the two counters as 32-bit unsigned
    integers before the conversion to a float: for a record whose true
    product is at least [2^32], the reported total memory is the product
    modulo [2^32] over 1024, and not the true product over 1024. *)
Theorem total_memory_wraps (s : ETWSession) :
  2 ^ 32 <= NumberOfBuffers s * BufferSize s ->
  (TotalMemoryMB s ==
     inject_Z ((NumberOfBuffers s * BufferSize s) mod 2 ^ 32) / 1024)%Q /\
  ~ (TotalMemoryMB s == inject_Z (NumberOfBuffers s * BufferSize s) / 1024)%Q.
Proof.
  intros Hbig. split; [apply TotalMemoryMB_value|].
  rewrite TotalMemoryMB_value. intros E.
  assert (H : (inject_Z ((NumberOfBuffers s * BufferSize s) mod 2 ^ 32)
               == inject_Z (NumberOfBuffers s * BufferSize s))%Q).
  { apply (Qmult_inj_r _ _ (/ 1024)%Q); [discriminate|exact E]. }
  apply (proj1 (inject_Z_injective _ _)) in H.
  pose proof (Z.mod_pos_bound (NumberOfBuffers s * BufferSize s) (2 ^ 32)).
  lia.
Qed.

(** A record with [65536] buffers of size [65536]: the product is [2^32]
    and the reported total memory is zero. *)
Lemma total_memory_wraps_witness :
  2 ^ 32 <= NumberOfBuffers Scenario.huge * BufferSize Scenario.huge /\
  (TotalMemoryMB Scenario.huge ==
     inject_Z ((NumberOfBuffers Scenario.huge * BufferSize Scenario.huge)
               mod 2 ^ 32) / 1024)%Q /\
  ~ (TotalMemoryMB Scenario.huge ==
     inject_Z (NumberOfBuffers Scenario.huge * BufferSize Scenario.huge)
     / 1024)%Q.
Proof.
  assert (H : 2 ^ 32 <= NumberOfBuffers Scenario.huge * BufferSize Scenario.huge)
    by (vm_compute; discriminate).
  split; [exact H|]. exact (total_memory_wraps Scenario.huge H).
Defined.

Example total_memory_huge : TotalMemoryMB Scenario.huge = 0%Q.
Proof. reflexivity. Qed.

(** C5, as stated, fails: the total memory of a record is not always the
    product of its two counters over 1024. *)
Lemma total_memory_not_product :
  ~ (forall s : ETWSession,
       session_in_range s = true ->
       (TotalMemoryMB s ==
          inject_Z (NumberOfBuffers s * BufferSize s) / 1024)%Q).
Proof.
  intros H.
  specialize (H Scenario.huge eq_refl).
  vm_compute in H. discriminate.
Qed.

(** C5, amended.  The total memory of a record is the product of
    [NumberOfBuffers] and [BufferSize] modulo [2^32], over 1024; it is the
    product over 1024 whenever the product is below [2^32].  The dashboard
    row and the export record carry this same value, in the columns
    "Memory(MB)" and "TotalMemory_MB". *)
Theorem total_memory_consistent (m : model) (s : ETWSession) :
  (TotalMemoryMB s ==
     inject_Z ((NumberOfBuffers s * BufferSize s) mod 2 ^ 32) / 1024)%Q /\
  (0 <= NumberOfBuffers s * BufferSize s < 2 ^ 32 ->
   (TotalMemoryMB s ==
      inject_Z (NumberOfBuffers s * BufferSize s) / 1024)%Q) /\
  (table_header !! 9%nat = Some "Memory(MB)" /\
   row_args (view_row m s) !! 9%nat = Some (arg_f 1 (TotalMemoryMB s))) /\
  (csv_header !! 11%nat = Some "TotalMemory_MB" /\
   csv_record s !! 11%nat = Some (field_float 2 (TotalMemoryMB s))).
Proof.
  split; [apply TotalMemoryMB_value|].
  split; [|split; split; reflexivity].
  intros Hsmall. rewrite TotalMemoryMB_value.
  rewrite Z.mod_small by exact Hsmall. reflexivity.
Qed.

(** C6, as stated, fails: with more free buffers than buffers the
    utilization is not [(NumberOfBuffers - FreeBuffers) / NumberOfBuffers *
    100], which would be negative. *)
Lemma utilization_not_signed_quotient :
  ~ (forall s : ETWSession,
       session_in_range s = true ->
       NumberOfBuffers s <> 0 ->
       (UtilizationPercent s ==
          inject_Z (NumberOfBuffers s - FreeBuffers s)
          / inject_Z (NumberOfBuffers s) * 100)%Q).
Proof.
  intros H.
  assert (Hne : NumberOfBuffers Scenario.overdrawn <> 0) by discriminate.
  specialize (H Scenario.overdrawn eq_refl Hne).
  vm_compute in H. discriminate.
Qed.

(** C6, amended.  The utilization is exactly 0 when [NumberOfBuffers] is 0.
    Otherwise it is the binary64 value of the quotient of the 32-bit
    unsigned difference [(NumberOfBuffers - FreeBuffers) mod 2^32] by
    [NumberOfBuffers], times 100: within a relative error of [2^-51] of
    that quantity, which is [(NumberOfBuffers - FreeBuffers) /
    NumberOfBuffers * 100] when [FreeBuffers <= NumberOfBuffers < 2^32].
    For [0 <= FreeBuffers <= NumberOfBuffers] it lies in [[0, 100]]. *)
Theorem utilization_percent_spec (s : ETWSession) :
  (NumberOfBuffers s = 0 -> UtilizationPercent s = 0%Q) /\
  (0 < NumberOfBuffers s ->
   let exact :=
     (inject_Z ((NumberOfBuffers s - FreeBuffers s) mod 2 ^ 32)
      / inject_Z (NumberOfBuffers s) * 100)%Q in
   (Qabs (UtilizationPercent s - exact) <= exact * (1 # 2251799813685248))%Q /\
   (0 <= FreeBuffers s <= NumberOfBuffers s -> NumberOfBuffers s < 2 ^ 32 ->
    exact =
      (inject_Z (NumberOfBuffers s - FreeBuffers s)
       / inject_Z (NumberOfBuffers s) * 100)%Q)) /\
  (0 <= FreeBuffers s <= NumberOfBuffers s ->
   (0 <= UtilizationPercent s <= 100)%Q).
Proof.
  split; [apply UtilizationPercent_zero|]. split.
  - intros Hn exact. split.
    + rewrite UtilizationPercent_unfold by lia. unfold exact.
      apply percent_error; [|exact Hn].
      apply Z.mod_pos_bound. lia.
    + intros Hf Hlt. unfold exact.
      rewrite Z.mod_small by lia. reflexivity.
  - intros Hf. destruct (Z.eq_dec (NumberOfBuffers s) 0) as [E|NE].
    + rewrite UtilizationPercent_zero by exact E. split; discriminate.
    + rewrite UtilizationPercent_unfold by exact NE.
      apply percent_range; [|lia].
      unfold U32.sub, U32.wrap, U32.modulus.
      pose proof (Z.mod_pos_bound (NumberOfBuffers s - FreeBuffers s) (2 ^ 32)).
      pose proof (Z.mod_le (NumberOfBuffers s - FreeBuffers s) (2 ^ 32)).
      lia.
Qed.

(** The two records of the end-to-end scenario: 10% and 90%; a third of
    the buffers in use: the binary64 number next to [100/3]; one buffer
    and two free ones: [(2^32 - 1) * 100]. *)
Example utilization_values :
  UtilizationPercent Scenario.quiet = 10%Q /\
  UtilizationPercent Scenario.lossy = 90%Q /\
  UtilizationPercent (Scenario.session "Third" 64 3 2 0 0)
    = (2345624805922133 # 70368744177664)%Q /\
  UtilizationPercent Scenario.overdrawn = 429496729500%Q.
Proof. repeat split; reflexivity. Qed.

(** ** Change detection *)

(** C7.  A session is flagged as changed exactly when the retained state
    has a record of its name and one of the four watched counters differs
    between the two records; a session with no record of its name in the
    retained state is not flagged. *)
Theorem changed_iff_counter_differs (m : model) (session : ETWSession) :
  (hasChanges m session = true <->
   exists previousSession,
     previousSessions m !! Name session = Some previousSession /\
     (NumberOfBuffers previousSession <> NumberOfBuffers session \/
      FreeBuffers previousSession <> FreeBuffers session \/
      EventsLost previousSession <> EventsLost session \/
      BuffersWritten previousSession <> BuffersWritten session)) /\
  (previousSessions m !! Name session = None ->
   hasChanges m session = false).
Proof.
  unfold hasChanges. split.
  - destruct (previousSessions m !! Name session) as [previous|]; simpl.
    + rewrite !orb_true_iff, !negb_true_iff, !Z.eqb_neq. split.
      * intros H. exists previous. split; [reflexivity|tauto].
      * intros (previous' & E & H). inversion E; subst. tauto.
    + split; [discriminate|]. intros (previous' & E & _). discriminate.
  - intros ->. reflexivity.
Qed.

(** The three cases of the design: same counters, one counter changed, a
    session that was not there before. *)
Example diff_cases :
  let m := current (Scenario.after 2 (sessionsMsg [])
             (Scenario.after 1 (sessionsMsg [Scenario.session "X" 64 10 5 0 0])
                (start 0 1 false))) in
  hasChanges m (Scenario.session "X" 64 10 5 0 0) = false /\
  hasChanges m (Scenario.session "X" 64 10 3 0 0) = true /\
  hasChanges m (Scenario.session "Y" 64 1 1 0 0) = false.
Proof. vm_compute. auto. Qed.

(** ** The dashboard *)

Lemma tally_app (f : ETWSession -> bool) (l1 l2 : list ETWSession) :
  tally f (l1 ++ l2) = tally f l1 + tally f l2.
Proof. induction l1 as [|s l1 IH]; simpl; [reflexivity|]. rewrite IH. lia. Qed.

Lemma tally_nonneg (f : ETWSession -> bool) (l : list ETWSession) :
  0 <= tally f l.
Proof. induction l as [|s l IH]; simpl; [lia|]. destruct (f s); lia. Qed.

(** The loop of lines 373-382 computes the two tallies. *)
Lemma count_warnings_tally (l : list ETWSession) :
  count_warnings l =
  {| highUtilSessions := tally high_utilization l;
     lostEventSessions := tally lost_events l |}.
Proof.
  unfold count_warnings.
  assert (H : forall w,
    foldl (fun w session =>
             {| highUtilSessions :=
                  if gtb (UtilizationPercent session) 80%Q
                  then highUtilSessions w + 1 else highUtilSessions w;
                lostEventSessions :=
                  if EventsLost session >? 0
                  then lostEventSessions w + 1 else lostEventSessions w |})
          w l =
    {| highUtilSessions := highUtilSessions w + tally high_utilization l;
       lostEventSessions := lostEventSessions w + tally lost_events l |}).
  { induction l as [|s l IH]; intros w; simpl.
    - destruct w. simpl. f_equal; lia.
    - rewrite IH. simpl. unfold high_utilization, lost_events.
      destruct (gtb (UtilizationPercent s) 80%Q), (EventsLost s >? 0);
        f_equal; lia. }
  rewrite H. reflexivity.
Qed.

(** The colour of a row, by severity, with the flag of line 315. *)
Lemma rowStyle_classified (m : model) (session : ETWSession) :
  exists sev,
    rowStyle m session = colour_of sev /\
    classified (hasChanges m session && negb (showOnce m)) session sev.
Proof.
  unfold rowStyle.
  destruct (EventsLost session >? 0) eqn:E1.
  { exists LostEvents. split; [reflexivity|]. by constructor. }
  destruct (gtb (UtilizationPercent session) 80%Q) eqn:E2.
  { exists HighUtilization. split; [reflexivity|]. by constructor. }
  destruct (hasChanges m session && negb (showOnce m)) eqn:E3.
  { exists ChangedSinceLastPoll. split; [reflexivity|]. by constructor. }
  exists Normal. split; [reflexivity|]. by constructor.
Qed.

(** A session falls under one severity only. *)
Lemma classified_unique (changed : bool) (s : ETWSession) (a b : Severity) :
  classified changed s a -> classified changed s b -> a = b.
Proof. intros Ha Hb. destruct Ha, Hb; congruence. Qed.

(** C8.  On every dashboard the program renders, each row has exactly one
    severity, by the first rule that applies among: lost events
    ([EventsLost > 0]), high utilization ([UtilizationPercent > 80]),
    changed since the last poll, normal.  The warning summary counts the
    sessions over the utilization threshold and the sessions with lost
    events separately, so a session with both is counted in both
    tallies. *)
Theorem dashboard_severity (p : Program) (rows : list Row) (totals : Totals)
    (average : Q) (warnings : option Warnings) :
  reachable p ->
  View (current p) = Dashboard rows totals average warnings ->
  rows_classified (current p) rows /\
  warnings_tallied (sessions (current p)) warnings /\
  counted_in_both (sessions (current p)) warnings.
Proof.
  intros Hreach Hview.
  unfold rows_classified, warnings_tallied, counted_in_both.
  unfold View in Hview.
  destruct (exiting (current p)); [discriminate|].
  destruct (err (current p)); [discriminate|].
  destruct (sessions (current p)) as [|s0 l0] eqn:Hs; [discriminate|].
  rewrite <- Hs in *. inversion Hview as [[Hrows Htotals Haverage Hwarn]].
  rewrite count_warnings_tally. simpl.
  split; [|split].
  - apply Forall2_fmap_r, Forall_Forall2_diag, Forall_forall.
    intros session _. simpl.
    destruct (rowStyle_classified (current p) session) as (sev & Hc & Hsev).
    assert (Hflag : hasChanges (current p) session
                      && negb (showOnce (current p))
                    = hasChanges (current p) session).
    { destruct (showOnce (current p)) eqn:Ho.
      - rewrite (hasChanges_once p session Hreach Ho). reflexivity.
      - apply andb_true_r. }
    rewrite Hflag in Hsev.
    exists sev. split; [exact Hc|]. split; [exact Hsev|].
    intros sev' Hsev'. eapply classified_unique; eassumption.
  - reflexivity.
  - intros before session behind Hsplit Hlost Hhigh.
    rewrite Hsplit, !tally_app. simpl. rewrite Hlost, Hhigh.
    pose proof (tally_nonneg high_utilization before).
    pose proof (tally_nonneg high_utilization behind).
    pose proof (tally_nonneg lost_events before).
    pose proof (tally_nonneg lost_events behind).
    destruct (Z.gtb_spec (tally high_utilization before
                          + (1 + tally high_utilization behind)) 0); [|lia].
    simpl. eexists. split; [reflexivity|]. simpl. lia.
Qed.

Lemma after_tick (now t : Time) (p : Program) (n : nat) :
  timers p = S n -> step p (Scenario.after now (tickMsg t) p).
Proof.
  intros H. unfold Scenario.after. rewrite H. simpl.
  eapply step_tick. exact H.
Qed.

Lemma after_sessions (now : Time) (l : list ETWSession) (p : Program) (n : nat) :
  queries p = S n -> step p (Scenario.after now (sessionsMsg l) p).
Proof.
  intros H. unfold Scenario.after. rewrite H. simpl.
  eapply step_sessions. exact H.
Qed.

Ltac run_scenario :=
  repeat (eapply reach_step;
          [| first [ eapply after_sessions; vm_compute; reflexivity
                   | eapply after_tick; vm_compute; reflexivity ] ]);
  apply reach_start.

Lemma end_to_end_reachable : reachable Scenario.end_to_end.
Proof. unfold Scenario.end_to_end. run_scenario. Qed.

Lemma vanished_reachable : reachable Scenario.vanished.
Proof. unfold Scenario.vanished. run_scenario. Qed.

(** The end-to-end scenario of the design: the row of the second session
    is red although its utilization is 90%, and the warnings report one
    session of each kind. *)
Lemma end_to_end_view :
  exists rows totals average,
    View (current Scenario.end_to_end) =
      Dashboard rows totals average
        (Some {| highUtilSessions := 1; lostEventSessions := 1 |}) /\
    map row_style rows = [Foreground "252"; Foreground "196"].
Proof.
  eexists _, _, _. split.
  - vm_compute. reflexivity.
  - vm_compute. reflexivity.
Qed.

Lemma dashboard_severity_witness :
  reachable Scenario.end_to_end /\
  exists rows totals average,
    View (current Scenario.end_to_end) =
      Dashboard rows totals average
        (Some {| highUtilSessions := 1; lostEventSessions := 1 |}) /\
    rows_classified (current Scenario.end_to_end) rows /\
    warnings_tallied (sessions (current Scenario.end_to_end))
      (Some {| highUtilSessions := 1; lostEventSessions := 1 |}) /\
    counted_in_both (sessions (current Scenario.end_to_end))
      (Some {| highUtilSessions := 1; lostEventSessions := 1 |}).
Proof.
  split; [exact end_to_end_reachable|].
  destruct end_to_end_view as (rows & totals & average & Hview & _).
  exists rows, totals, average. split; [exact Hview|].
  exact (dashboard_severity Scenario.end_to_end rows totals average _
           end_to_end_reachable Hview).
Defined.

(** ** The state store *)

(** C1, as stated, fails: a session that was polled once and then
    disappeared is still in the retained state two polls later, when
    neither the preceding snapshot nor even the latest one has a record of
    that name. *)
Lemma store_keeps_older_records :
  ~ (forall p : Program, reachable p -> retains_only_recent p).
Proof.
  intros H.
  destruct (H Scenario.vanished vanished_reachable "A") as (r & Hr & Hn).
  - vm_compute. eauto.
  - vm_compute in Hr.
    repeat (apply elem_of_cons in Hr;
            destruct Hr as [->|Hr]; [vm_compute in Hn; discriminate|]).
    by apply not_elem_of_nil in Hr.
Qed.

(** The same run refutes the stronger reading, with the preceding
    snapshot alone. *)
Lemma store_keeps_more_than_preceding :
  ~ (forall p : Program, reachable p -> retains_only_preceding p).
Proof.
  intros H.
  destruct (H Scenario.vanished vanished_reachable "A") as (r & Hr & Hn).
  - vm_compute. eauto.
  - vm_compute in Hr.
    repeat (apply elem_of_cons in Hr;
            destruct Hr as [->|Hr]; [vm_compute in Hn; discriminate|]).
    by apply not_elem_of_nil in Hr.
Qed.

(** C1, amended.  The store keeps one record per session name, not one
    snapshot: when a poll's snapshot arrives, each record of the snapshot
    it supersedes is stored under its name.  After every poll the retained
    record of a name is the one of the most recent superseded snapshot that
    has the name; so it belongs to the snapshot of an earlier poll, and to
    the preceding poll's snapshot whenever that snapshot has the name.  The
    model itself shows the latest snapshot. *)
Theorem store_retains_latest_by_name (p : Program) :
  reachable p ->
  sessions (current p) = default [] (head (polls p)) /\
  (forall k,
     previousSessions (current p) !! k = retained (tail (polls p)) k) /\
  (forall k r,
     previousSessions (current p) !! k = Some r ->
     Name r = k /\
     exists snapshot, snapshot ∈ tail (polls p) /\ r ∈ snapshot) /\
  (forall r,
     r ∈ preceding p ->
     exists r', previousSessions (current p) !! Name r = Some r' /\
                r' ∈ preceding p).
Proof.
  intros Hreach. destruct (reachable_inv p Hreach) as [[Hs Hp] _].
  split; [exact Hs|]. split; [exact Hp|]. split.
  - intros k r Hk. rewrite Hp in Hk. apply retained_Some. exact Hk.
  - intros r Hr. rewrite Hp. unfold preceding in *.
    destruct (polls p) as [|latest [|snapshot older]]; simpl in *;
      try (by apply not_elem_of_nil in Hr).
    destruct (record_of (Name r) snapshot) as [r'|] eqn:E.
    + exists r'. split; [reflexivity|].
      apply record_of_Some in E. tauto.
    + exfalso. apply (proj1 (record_of_None _ _) E r Hr). reflexivity.
Qed.

(** The run with the vanished session: the store still holds the record
    of "A", which comes from the first of the three polls. *)
Lemma store_retains_latest_by_name_witness :
  reachable Scenario.vanished /\
  (sessions (current Scenario.vanished)
     = default [] (head (polls Scenario.vanished)) /\
   (forall k,
      previousSessions (current Scenario.vanished) !! k
      = retained (tail (polls Scenario.vanished)) k) /\
   (forall k r,
      previousSessions (current Scenario.vanished) !! k = Some r ->
      Name r = k /\
      exists snapshot,
        snapshot ∈ tail (polls Scenario.vanished) /\ r ∈ snapshot) /\
   (forall r,
      r ∈ preceding Scenario.vanished ->
      exists r',
        previousSessions (current Scenario.vanished) !! Name r = Some r' /\
        r' ∈ preceding Scenario.vanished)).
Proof.
  split; [exact vanished_reachable|].
  exact (store_retains_latest_by_name Scenario.vanished vanished_reachable).
Defined.

Example vanished_store :
  previousSessions (current Scenario.vanished) !! "A"
    = Some (Scenario.session "A" 64 10 5 0 0) /\
  retained (tail (polls Scenario.vanished)) "A"
    = Some (Scenario.session "A" 64 10 5 0 0) /\
  map (map Name) (polls Scenario.vanished) = [["B"]; ["B"]; ["A"; "B"]].
Proof. vm_compute. auto. Qed.

(** ** The session query engine *)

(** C9.  A snapshot a successful query returns is sorted by session name,
    ascending: of two records, the earlier has the smaller or equal name. *)
Theorem snapshot_sorted_by_name (w : World) (st st' : QState)
    (l : list ETWSession) :
  QueryAllSessions w st = (Ok l, st') ->
  forall (i j : nat) (a b : ETWSession),
    (i < j)%nat -> l !! i = Some a -> l !! j = Some b ->
    String.leb (Name a) (Name b) = true.
Proof.
  intros H. apply QueryAllSessions_Ok in H.
  destruct H as [[-> _]|(decoded & -> & _)].
  - intros i j a b _ Ha. rewrite lookup_nil in Ha. discriminate.
  - apply (StronglySorted_lookup name_le). apply sort_sessions_sorted.
Qed.

(** The query of two traces the subsystem lists as "Beta", "Alpha". *)
Lemma ticking_query :
  QueryAllSessions Scenario.ticking fresh =
  (Ok Scenario.ticking_snapshot, Scenario.ticking_final).
Proof. vm_compute. reflexivity. Qed.

Lemma snapshot_sorted_by_name_witness :
  QueryAllSessions Scenario.ticking fresh =
    (Ok Scenario.ticking_snapshot, Scenario.ticking_final) /\
  forall (i j : nat) (a b : ETWSession),
    (i < j)%nat ->
    Scenario.ticking_snapshot !! i = Some a ->
    Scenario.ticking_snapshot !! j = Some b ->
    String.leb (Name a) (Name b) = true.
Proof.
  split; [exact ticking_query|].
  exact (snapshot_sorted_by_name Scenario.ticking fresh _ _ ticking_query).
Defined.

(** C2, as stated, fails: when the clock advances while the records are
    decoded, the records of one snapshot carry different timestamps. *)
Lemma timestamps_differ :
  ~ (forall (w : World) (st st' : QState) (l : list ETWSession),
       QueryAllSessions w st = (Ok l, st') ->
       forall a b, a ∈ l -> b ∈ l -> Timestamp a = Timestamp b).
Proof.
  intros H.
  specialize (H Scenario.ticking fresh _ _ ticking_query
                (mkETWSession "Alpha" 64 4 30 10 1 100 5 0 1 "" 7)
                (mkETWSession "Beta" 64 4 30 20 18 100 0 0 1 "C:\beta.etl" 0)).
  assert (E : 7 = 0); [|discriminate].
  apply H; [by left|by right; left].
Qed.

(** C2, amended.  A successful query reads the clock once for each record
    of its snapshot, when the record is decoded: the timestamps of the
    snapshot are these readings, one each.  The records share one timestamp
    whenever the clock does not advance between these readings. *)
Theorem timestamps_are_clock_readings (w : World) (st st' : QState)
    (l : list ETWSession) :
  QueryAllSessions w st = (Ok l, st') ->
  clock_reads st' = (clock_reads st + length l)%nat /\
  Permutation (map Timestamp l)
    (map (clock w) (seq (clock_reads st) (length l))) /\
  ((forall n, (clock_reads st <= n < clock_reads st')%nat ->
              clock w n = clock w (clock_reads st)) ->
   forall a, a ∈ l -> Timestamp a = clock w (clock_reads st)).
Proof.
  intros H. apply QueryAllSessions_Ok in H.
  assert (Hshape :
    clock_reads st' = (clock_reads st + length l)%nat /\
    Permutation (map Timestamp l)
      (map (clock w) (seq (clock_reads st) (length l)))).
  { destruct H as [[-> ->]|(decoded & -> & Hts & Hr)].
    - simpl. split; [lia|constructor].
    - pose proof (sort_Slice_perm less
                    (fun x y => OrderFacts.ltb_asym (Name x) (Name y)) decoded) as P.
      rewrite (Permutation_length P). split; [exact Hr|].
      rewrite <- Hts. apply Permutation_map. exact P. }
  destruct Hshape as [Hr Hperm]. split; [exact Hr|]. split; [exact Hperm|].
  intros Hconst a Ha.
  assert (Hin : Timestamp a ∈ map Timestamp l).
  { apply list_elem_of_fmap. exists a. auto. }
  rewrite Hperm in Hin. apply list_elem_of_fmap in Hin.
  destruct Hin as (n & -> & Hn).
  apply list_elem_of_In, in_seq in Hn. apply Hconst. lia.
Qed.

Lemma timestamps_are_clock_readings_witness :
  QueryAllSessions Scenario.ticking fresh =
    (Ok Scenario.ticking_snapshot, Scenario.ticking_final) /\
  clock_reads Scenario.ticking_final
    = (clock_reads fresh + length Scenario.ticking_snapshot)%nat /\
  Permutation (map Timestamp Scenario.ticking_snapshot)
    (map (clock Scenario.ticking)
       (seq (clock_reads fresh) (length Scenario.ticking_snapshot))) /\
  ((forall n, (clock_reads fresh <= n < clock_reads Scenario.ticking_final)%nat ->
              clock Scenario.ticking n
              = clock Scenario.ticking (clock_reads fresh)) ->
   forall a, a ∈ Scenario.ticking_snapshot ->
             Timestamp a = clock Scenario.ticking (clock_reads fresh)).
Proof.
  split; [exact ticking_query|].
  exact (timestamps_are_clock_readings Scenario.ticking fresh _ _
           ticking_query).
Defined.

(** C4, as stated, fails: a sizing call that reports a count of zero with
    a status other than more-data makes the query fail. *)
Lemma zero_count_can_fail :
  ~ (forall (w : World) (st : QState),
       snd (sizing_call w) = 0 -> fst (QueryAllSessions w st) = Ok []).
Proof.
  intros H. specialize (H Scenario.idle fresh eq_refl).
  vm_compute in H. discriminate.
Qed.

(** C4, amended.  The query checks the status of the sizing call first:
    it fails at the sizing stage, with the raw status in the error, exactly
    when that status is not the more-data status, whatever the count; and
    when the status is more-data and the count is zero it returns an empty
    snapshot and no error. *)
Theorem sizing_contract (w : World) (st : QState) :
  (fst (sizing_call w) = ERROR_MORE_DATA -> snd (sizing_call w) = 0 ->
   QueryAllSessions w st = (Ok [], st)) /\
  (fst (sizing_call w) <> ERROR_MORE_DATA <->
   QueryAllSessions w st =
     (Failed (Errorf "failed to get session count, error: %d"
                (fst (sizing_call w))), st)).
Proof.
  unfold QueryAllSessions.
  destruct (sizing_call w) as [ret sessionCount]. simpl.
  destruct (Z.eqb_spec ret ERROR_MORE_DATA) as [E|NE]; simpl.
  - split.
    + intros _ ->. reflexivity.
    + split; [contradiction|]. intros H. exfalso.
      destruct (sessionCount =? 0); [discriminate|].
      unfold mbind, M_bind in H.
      destruct (allocate sessionCount) as [[buffer sessionArray]|];
        simpl in H; [|discriminate].
      destruct (data_call w buffer sessionArray sessionCount)
        as [[ret' count'] buffer'].
      destruct (ret' =? ERROR_SUCCESS); [|discriminate].
      destruct (decode_loop w buffer' sessionArray (seqZ 0 count') [] st)
        as [[sessions|e|why] st1] eqn:Hloop; try discriminate.
      exact (never_fails_decode_loop _ _ _ _ _ _ _ _ Hloop).
  - split; [contradiction|]. split; [reflexivity|]. intros _. exact NE.
Qed.

(** The two outcomes of the sizing stage, on a subsystem that reports no
    session with the more-data status and on one that reports it with
    [ERROR_SUCCESS]. *)
Example sizing_outcomes :
  QueryAllSessions Scenario.empty fresh = (Ok [], fresh) /\
  QueryAllSessions Scenario.idle fresh =
    (Failed (Errorf "failed to get session count, error: %d" 0), fresh).
Proof. split; reflexivity. Qed.

(** C3.  What the allocation phase does, against what the design asks.
    For every session slot the header announces a total size of the header
    plus [MAX_SESSION_NAME_LEN * 2] bytes, which is one text region of
    [MAX_SESSION_NAME_LEN] wide characters and not two; the session name
    starts after the header and the log file name [MAX_SESSION_NAME_LEN]
    bytes later, half the byte length of a name of [MAX_SESSION_NAME_LEN]
    wide characters.  No slot is laid out as the design asks. *)
Theorem allocation_reserves_half (sessionCount : Z) :
  0 < sessionCount -> sessionCount * propertySize <= 2 ^ 32 ->
  exists buffer sessionArray,
    allocate sessionCount = Some (buffer, sessionArray) /\
    Z.of_nat (length buffer) = sessionCount * propertySize /\
    Z.of_nat (length sessionArray) = sessionCount /\
    forall i, 0 <= i < sessionCount ->
      sessionArray !! Z.to_nat i = Some (i * propertySize) /\
      slot_initialised buffer (i * propertySize) /\
      ~ slot_as_designed buffer (i * propertySize).
Proof.
  intros Hpos Hmax.
  destruct (allocate_loop sessionCount (Z.to_nat sessionCount))
    as (buffer & sessionArray & Hfold & Hlb & Hla & Hslots); [lia|exact Hmax|].
  rewrite Z2Nat.id in Hfold, Hslots by lia.
  exists buffer, sessionArray. split; [exact Hfold|].
  split; [exact Hlb|]. split; [exact Hla|].
  intros i Hi. destruct (Hslots i Hi) as [Ha Hinit].
  split; [exact Ha|]. split; [exact Hinit|].
  destruct Hinit as (H1 & H2 & H3).
  intros (total & nameOffset & fileOffset & T1 & T2 & T3 & Htotal & _ & Hfile & _).
  rewrite H1 in T1. injection T1 as T1.
  rewrite <- T1 in Htotal. vm_compute in Htotal. discriminate.
Qed.

(** One session: the header at address 0 announces 2168 bytes and places
    the two names at 120 and 1144. *)
Lemma allocation_reserves_half_witness :
  (0 < 1 /\ 1 * propertySize <= 2 ^ 32) /\
  exists buffer sessionArray,
    allocate 1 = Some (buffer, sessionArray) /\
    Z.of_nat (length buffer) = 1 * propertySize /\
    Z.of_nat (length sessionArray) = 1 /\
    forall i, 0 <= i < 1 ->
      sessionArray !! Z.to_nat i = Some (i * propertySize) /\
      slot_initialised buffer (i * propertySize) /\
      ~ slot_as_designed buffer (i * propertySize).
Proof.
  split; [split; [reflexivity|discriminate]|].
  apply (allocation_reserves_half 1); [reflexivity|discriminate].
Defined.

(** The values, for one session and for the second of two. *)
Example allocation_values :
  (exists buffer,
     allocate 1 = Some (buffer, [0]) /\
     Mem.peek32 buffer Wnode_BufferSize_offset = Some 2168 /\
     Mem.peek32 buffer (field_offset "LoggerNameOffset") = Some 120 /\
     Mem.peek32 buffer (field_offset "LogFileNameOffset") = Some 1144) /\
  (exists buffer,
     allocate 2 = Some (buffer, [0; 2168]) /\
     Mem.peek32 buffer (2168 + Wnode_BufferSize_offset) = Some 2168 /\
     Mem.peek32 buffer (2168 + field_offset "LoggerNameOffset") = Some 120 /\
     Mem.peek32 buffer (2168 + field_offset "LogFileNameOffset") = Some 1144).
Proof.
  split; eexists; (split; [vm_compute; reflexivity|]);
    repeat split; reflexivity.
Qed.
